(** * Verification of the EEG severity dashboard (App.js variants)

    Shallow embedding of the analysis helpers and of the playback loop of
    the dashboard: [src/arrow_no_yellow.js] (two App variants) and
    [src/unnamed/part_000] (two further App variants).

    JavaScript numbers are modelled as extended rationals with NaN: a
    finite double is an exact rational (rounding is not modelled), and
    the IEEE special values +Infinity, -Infinity and NaN are kept with the
    IEEE rules for the operations the code uses.  Signed zero is not
    modelled (it plays no role in the code below: every division in it
    has a divisor that is a positive constant or at least 0.1). *)

From Stdlib Require Import QArith Qabs Qround Lqa String List Bool Arith Lia NArith Sorted Permutation.
Import ListNotations.
Open Scope Q_scope.

(* ------------------------------------------------------------------ *)
(** ** JavaScript numbers *)

Inductive num : Type :=
| Fin (q : Q)
| PInf
| NInf
| NaN.

Module Num.

Definition of_nat (n : nat) : num := Fin (inject_Z (Z.of_nat n)).

Definition neg (x : num) : num :=
  match x with
  | Fin a => Fin (- a)
  | PInf => NInf
  | NInf => PInf
  | NaN => NaN
  end.

Definition add (x y : num) : num :=
  match x, y with
  | NaN, _ | _, NaN => NaN
  | Fin a, Fin b => Fin (a + b)
  | PInf, NInf | NInf, PInf => NaN
  | PInf, _ | _, PInf => PInf
  | NInf, _ | _, NInf => NInf
  end.

Definition sub (x y : num) : num := add x (neg y).

(** sign of a finite value: [Some true] positive, [Some false] negative,
    [None] zero *)
Definition sgn (a : Q) : option bool :=
  if Qeq_bool a 0 then None else Some (Qle_bool 0 a).

Definition inf_of (pos : bool) : num := if pos then PInf else NInf.

Definition mul (x y : num) : num :=
  match x, y with
  | NaN, _ | _, NaN => NaN
  | Fin a, Fin b => Fin (a * b)
  | Fin a, PInf | PInf, Fin a =>
      match sgn a with None => NaN | Some p => inf_of p end
  | Fin a, NInf | NInf, Fin a =>
      match sgn a with None => NaN | Some p => inf_of (negb p) end
  | PInf, PInf | NInf, NInf => PInf
  | PInf, NInf | NInf, PInf => NInf
  end.

Definition div (x y : num) : num :=
  match x, y with
  | NaN, _ | _, NaN => NaN
  | Fin a, Fin b =>
      if Qeq_bool b 0 then
        match sgn a with None => NaN | Some p => inf_of p end
      else Fin (a / b)
  | Fin _, (PInf | NInf) => Fin 0
  | PInf, Fin b => match sgn b with Some false => NInf | _ => PInf end
  | NInf, Fin b => match sgn b with Some false => PInf | _ => NInf end
  | (PInf | NInf), (PInf | NInf) => NaN
  end.

(** [x < y]; every comparison with NaN is false *)
Definition lt (x y : num) : bool :=
  match x, y with
  | NaN, _ | _, NaN => false
  | Fin a, Fin b => negb (Qle_bool b a)
  | Fin _, PInf | NInf, PInf | NInf, Fin _ => true
  | _, _ => false
  end.

Definition le (x y : num) : bool :=
  match x, y with
  | NaN, _ | _, NaN => false
  | Fin a, Fin b => Qle_bool a b
  | _, PInf | NInf, _ => true
  | _, _ => false
  end.

(** [Math.min] / [Math.max] of two numbers: NaN if either is NaN *)
Definition min (x y : num) : num :=
  match x, y with
  | NaN, _ | _, NaN => NaN
  | _, _ => if le x y then x else y
  end.

Definition max (x y : num) : num :=
  match x, y with
  | NaN, _ | _, NaN => NaN
  | _, _ => if le y x then x else y
  end.

Definition abs (x : num) : num :=
  match x with
  | Fin a => Fin (Qabs a)
  | PInf | NInf => PInf
  | NaN => NaN
  end.

(** [Number.isFinite] *)
Definition isFinite (x : num) : bool :=
  match x with Fin _ => true | _ => false end.

(** [isNaN] on a number *)
Definition isNaN (x : num) : bool :=
  match x with NaN => true | _ => false end.

(** truthiness of a number: false for 0 and NaN *)
Definition truthy (x : num) : bool :=
  match x with
  | Fin a => negb (Qeq_bool a 0)
  | NaN => false
  | _ => true
  end.

(** [SameValue] (Object.is) modulo signed zero *)
Definition same (x y : num) : Prop :=
  match x, y with
  | Fin a, Fin b => a == b
  | PInf, PInf | NInf, NInf | NaN, NaN => True
  | _, _ => False
  end.

End Num.

Declare Scope js_scope.
Delimit Scope js_scope with js.
Infix "+" := Num.add : js_scope.
Infix "-" := Num.sub : js_scope.
Infix "*" := Num.mul : js_scope.
Infix "/" := Num.div : js_scope.
Infix "<" := Num.lt : js_scope.

(* ------------------------------------------------------------------ *)
(** ** Helpers (top of every variant) *)

(** [const clamp = (x, a, b) => Math.max(a, Math.min(b, x));] *)
Definition clamp (x a b : num) : num := Num.max a (Num.min b x).

(** [const lerp = (a, b, t) => a + (b - a) * t;] *)
Definition lerp (a b t : num) : num := (a + (b - a) * t)%js.

(** [const safe = (v) => (Number.isFinite(v) ? v : 0);] *)
Definition safe (v : num) : num := if Num.isFinite v then v else Fin 0.

(** [Number(v) || 0] on a field that is either a number or missing
    ([undefined], which [Number] turns into NaN) *)
Definition number_or_zero (v : option num) : num :=
  let n := match v with Some x => x | None => NaN end in
  if Num.truthy n then n else Fin 0.

(* ------------------------------------------------------------------ *)
(** ** computeStrokeSeverity *)

(** the [values] argument: each band power is a number or missing *)
Record bands : Type := mkBands {
  b_alpha : option num;
  b_theta : option num;
  b_delta : option num
}.

Definition computeStrokeSeverity (values : bands) : num :=
  let alpha := number_or_zero (b_alpha values) in
  let theta := number_or_zero (b_theta values) in
  let delta := number_or_zero (b_delta values) in
  let alphaLowTH := Fin 9 in
  let thetaHighTH := Fin 5.5 in
  let deltaHighTH := Fin 3.5 in
  let alphaLow := clamp ((alphaLowTH - alpha) / alphaLowTH)%js (Fin 0) (Fin 1) in
  let thetaHigh := clamp ((theta - thetaHighTH) / thetaHighTH)%js (Fin 0) (Fin 1) in
  let deltaHigh := clamp ((delta - deltaHighTH) / deltaHighTH)%js (Fin 0) (Fin 1) in
  let safeAlpha := Num.max alpha (Fin 0.1) in
  let tar := (theta / safeAlpha)%js in
  let dar := (delta / safeAlpha)%js in
  let tarNorm := clamp ((tar - Fin 0.4) / Fin 1.2)%js (Fin 0) (Fin 1) in
  let darNorm := clamp ((dar - Fin 0.2) / Fin 1.0)%js (Fin 0) (Fin 1) in
  let severity :=
    (Fin 0.15 * alphaLow + Fin 0.3 * thetaHigh + Fin 0.3 * deltaHigh
     + Fin 0.15 * tarNorm + Fin 0.1 * darNorm)%js in
  let severity :=
    if (alpha < theta)%js && (alpha < delta)%js then (severity + Fin 0.2)%js
    else severity in
  clamp (severity * Fin 1.4)%js (Fin 0) (Fin 1).

(** a number in the closed interval [0,1] (NaN and the infinities are not) *)
Definition in01 (x : num) : Prop :=
  exists q, x = Fin q /\ 0 <= q /\ q <= 1.

(** the field is +Infinity or -Infinity *)
Definition is_inf (v : option num) : bool :=
  match v with Some PInf | Some NInf => true | _ => false end.

(** the inputs on which [tar] or [dar] is [Infinity / Infinity] *)
Definition severity_nan_input (v : bands) : Prop :=
  b_alpha v = Some PInf /\ is_inf (b_theta v) || is_inf (b_delta v) = true.

(* ------------------------------------------------------------------ *)
(** ** Arithmetic facts on the number model *)

Section NumFacts.

Lemma num_eq_dec_pinf (x : num) : {x = PInf} + {x <> PInf}.
Proof. destruct x; [right | left | right | right]; congruence. Qed.

Lemma add_nan_r (x : num) : (x + NaN)%js = NaN.
Proof. destruct x; reflexivity. Qed.

Lemma mul_nan_r (x : num) : (x * NaN)%js = NaN.
Proof. destruct x; reflexivity. Qed.

Lemma min_nan_r (x : num) : Num.min x NaN = NaN.
Proof. destruct x; reflexivity. Qed.

Lemma max_nan_r (x : num) : Num.max x NaN = NaN.
Proof. destruct x; reflexivity. Qed.

Lemma clamp_nan (a b : num) : clamp NaN a b = NaN.
Proof. unfold clamp. rewrite min_nan_r, max_nan_r. reflexivity. Qed.

Lemma number_or_zero_not_nan (v : option num) : number_or_zero v <> NaN.
Proof.
  unfold number_or_zero. destruct v as [[q| | |]|]; simpl;
    try destruct (negb (Qeq_bool q 0)); discriminate.
Qed.

Lemma sub_const_not_nan (x : num) (c : Q) : x <> NaN -> (x - Fin c)%js <> NaN.
Proof. destruct x; simpl; congruence. Qed.

Lemma const_sub_not_nan (x : num) (c : Q) : x <> NaN -> (Fin c - x)%js <> NaN.
Proof. destruct x; simpl; congruence. Qed.

Lemma div_fin_not_nan (x : num) (c : Q) :
  x <> NaN -> ~ c == 0 -> (x / Fin c)%js <> NaN.
Proof.
  intros Hx Hc. destruct x; simpl; try congruence.
  - destruct (Qeq_bool c 0) eqn:E.
    + apply Qeq_bool_eq in E. contradiction.
    + discriminate.
  - destruct (Num.sgn c) as [[|]|]; discriminate.
  - destruct (Num.sgn c) as [[|]|]; discriminate.
Qed.

Lemma Qle_bool_false (a b : Q) : Qle_bool a b = false -> b < a.
Proof.
  intros H. apply Qnot_le_lt. intros Hle.
  apply Qle_bool_iff in Hle. congruence.
Qed.

Lemma clamp01_in01 (x : num) : x <> NaN -> in01 (clamp x (Fin 0) (Fin 1)).
Proof.
  intros Hx. unfold clamp, in01. destruct x as [q| | |]; simpl.
  - destruct (Qle_bool 1 q) eqn:E1.
    + exists 1. simpl. repeat split; try reflexivity; lra.
    + apply Qle_bool_false in E1.
      destruct (Qle_bool q 0) eqn:E2.
      * apply Qle_bool_iff in E2. simpl. rewrite (proj2 (Qle_bool_iff q 0) E2).
        exists 0. repeat split; try reflexivity; lra.
      * apply Qle_bool_false in E2. simpl.
        destruct (Qle_bool q 0) eqn:E3; [apply Qle_bool_iff in E3; lra|].
        exists q. repeat split; try reflexivity; lra.
  - exists 1. simpl. repeat split; try reflexivity; lra.
  - exists 0. simpl. repeat split; try reflexivity; lra.
  - congruence.
Qed.

Lemma in01_fin (x : num) : in01 x -> exists q, x = Fin q.
Proof. intros (q & -> & _). eauto. Qed.

Lemma fin_not_nan (q : Q) : Fin q <> NaN.
Proof. discriminate. Qed.

Lemma safeAlpha_fin (x : num) :
  x <> NaN -> x <> PInf -> exists q, Num.max x (Fin 0.1) = Fin q /\ 0.1 <= q.
Proof.
  intros H1 H2. destruct x as [a| | |]; try congruence.
  - simpl. destruct (Qle_bool 0.1 a) eqn:E.
    + exists a. split; [reflexivity|]. apply Qle_bool_iff; exact E.
    + exists 0.1. repeat split; try reflexivity; lra.
  - exists 0.1. repeat split; try reflexivity; lra.
Qed.

Lemma div_pos_not_nan (x : num) (q : Q) :
  x <> NaN -> 0.1 <= q -> (x / Fin q)%js <> NaN.
Proof. intros Hx Hq. apply div_fin_not_nan; [exact Hx | lra]. Qed.

End NumFacts.

Create HintDb jsnum.
Global Hint Resolve fin_not_nan number_or_zero_not_nan sub_const_not_nan
  const_sub_not_nan : jsnum.

Ltac fin_of H :=
  let q := fresh "q" in
  let E := fresh "E" in
  destruct (in01_fin _ H) as [q E]; rewrite E.

Section SeverityFacts.

Lemma number_or_zero_pinf (v : option num) :
  number_or_zero v = PInf -> v = Some PInf.
Proof.
  unfold number_or_zero. destruct v as [[q| | |]|]; simpl; try congruence.
  destruct (negb (Qeq_bool q 0)); congruence.
Qed.

Lemma number_or_zero_inf (v : option num) :
  number_or_zero v = PInf \/ number_or_zero v = NInf -> is_inf v = true.
Proof.
  unfold number_or_zero. destruct v as [[q| | |]|]; simpl; try reflexivity;
    try (destruct (negb (Qeq_bool q 0))); intros [H|H]; congruence.
Qed.

Lemma number_or_zero_of_inf (v : option num) :
  is_inf v = true -> number_or_zero v = PInf \/ number_or_zero v = NInf.
Proof. destruct v as [[q| | |]|]; simpl; try discriminate; auto. Qed.

Lemma nine_neq_0 : ~ (9 == 0).
Proof. intro H. vm_compute in H. discriminate H. Qed.

Lemma ratio_not_nan (alpha x : num) :
  alpha <> NaN -> x <> NaN ->
  ~ (alpha = PInf /\ (x = PInf \/ x = NInf)) ->
  (x / Num.max alpha (Fin 0.1))%js <> NaN.
Proof.
  intros Ha Hx Hn. destruct (num_eq_dec_pinf alpha) as [->|Hp].
  - simpl. destruct x; simpl; try discriminate; exfalso; tauto.
  - destruct (safeAlpha_fin alpha Ha Hp) as (q & -> & Hq).
    apply div_pos_not_nan; assumption.
Qed.

End SeverityFacts.

Lemma severity_weighted_fin (a b c d e : num) (bonus : bool) :
  in01 a -> in01 b -> in01 c -> in01 d -> in01 e ->
  exists q,
    (if bonus
     then (Fin 0.15 * a + Fin 0.3 * b + Fin 0.3 * c + Fin 0.15 * d + Fin 0.1 * e
           + Fin 0.2)%js
     else (Fin 0.15 * a + Fin 0.3 * b + Fin 0.3 * c + Fin 0.15 * d + Fin 0.1 * e)%js)
    = Fin q.
Proof.
  intros Ha Hb Hc Hd He.
  fin_of Ha. fin_of Hb. fin_of Hc. fin_of Hd. fin_of He.
  destruct bonus; simpl; eexists; reflexivity.
Qed.

(** C1 (amended). The severity is a number in [0,1] for every input record
    except those with alpha = +Infinity and theta or delta infinite, where
    [theta / safeAlpha] or [delta / safeAlpha] is [Infinity / Infinity] and
    the severity is NaN. *)
Theorem computeStrokeSeverity_in_unit_interval (v : bands) :
  (severity_nan_input v -> computeStrokeSeverity v = NaN) /\
  (~ severity_nan_input v -> in01 (computeStrokeSeverity v)).
Proof.
  split.
  - intros [Ha Hi]. unfold computeStrokeSeverity. rewrite Ha.
    apply orb_true_iff in Hi as [Hi|Hi];
      apply number_or_zero_of_inf in Hi as [Hi|Hi]; rewrite Hi;
      cbn [number_or_zero Num.truthy negb Num.max Num.le Num.div];
      rewrite ?clamp_nan, ?mul_nan_r, ?add_nan_r;
      destruct (_ && _); cbn [Num.add Num.mul]; rewrite ?add_nan_r;
      apply clamp_nan.
  - intros Hn. unfold computeStrokeSeverity.
    pose proof (number_or_zero_not_nan (b_alpha v)) as Ha.
    pose proof (number_or_zero_not_nan (b_theta v)) as Ht.
    pose proof (number_or_zero_not_nan (b_delta v)) as Hd.
    assert (Hr : forall w, is_inf w = false \/ b_alpha v <> Some PInf ->
              ~ (number_or_zero (b_alpha v) = PInf /\
                 (number_or_zero w = PInf \/ number_or_zero w = NInf))).
    { intros w Hw [H1 H2]. apply number_or_zero_pinf in H1.
      apply number_or_zero_inf in H2. destruct Hw; congruence. }
    assert (Hth : is_inf (b_theta v) = false \/ b_alpha v <> Some PInf).
    { destruct (is_inf (b_theta v)) eqn:E; [right|left; reflexivity].
      intro H. apply Hn. split; [exact H | rewrite E; reflexivity]. }
    assert (Hdl : is_inf (b_delta v) = false \/ b_alpha v <> Some PInf).
    { destruct (is_inf (b_delta v)) eqn:E; [right|left; reflexivity].
      intro H. apply Hn. split; [exact H | rewrite E, orb_true_r; reflexivity]. }
    set (alpha := number_or_zero (b_alpha v)) in *.
    set (theta := number_or_zero (b_theta v)) in *.
    set (delta := number_or_zero (b_delta v)) in *.
    cbv zeta.
    assert (Hnz : forall c : Q, 1 <= c -> ~ c == 0).
    { intros c Hc H. lra. }
    assert (H1 : in01 (clamp ((Fin 9 - alpha) / Fin 9)%js (Fin 0) (Fin 1))).
    { apply clamp01_in01, div_fin_not_nan; [auto with jsnum | apply Hnz; lra]. }
    assert (H2 : in01 (clamp ((theta - Fin 5.5) / Fin 5.5)%js (Fin 0) (Fin 1))).
    { apply clamp01_in01, div_fin_not_nan; [auto with jsnum | apply Hnz; lra]. }
    assert (H3 : in01 (clamp ((delta - Fin 3.5) / Fin 3.5)%js (Fin 0) (Fin 1))).
    { apply clamp01_in01, div_fin_not_nan; [auto with jsnum | apply Hnz; lra]. }
    assert (H4 : in01 (clamp ((theta / Num.max alpha (Fin 0.1) - Fin 0.4) / Fin 1.2)%js
                        (Fin 0) (Fin 1))).
    { apply clamp01_in01, div_fin_not_nan; [|apply Hnz; lra].
      apply sub_const_not_nan, ratio_not_nan; [exact Ha | exact Ht | exact (Hr _ Hth)]. }
    assert (H5 : in01 (clamp ((delta / Num.max alpha (Fin 0.1) - Fin 0.2) / Fin 1.0)%js
                        (Fin 0) (Fin 1))).
    { apply clamp01_in01, div_fin_not_nan; [|apply Hnz; lra].
      apply sub_const_not_nan, ratio_not_nan; [exact Ha | exact Hd | exact (Hr _ Hdl)]. }
    destruct (severity_weighted_fin _ _ _ _ _
      ((alpha < theta)%js && (alpha < delta)%js) H1 H2 H3 H4 H5) as [q Hq].
    rewrite Hq. apply clamp01_in01. discriminate.
Qed.

(* ------------------------------------------------------------------ *)
(** ** computeStrokeSeverity on finite inputs *)

Section FiniteSeverity.

(** [clamp(x, 0, 1)] on a finite [x], branch by branch *)
Definition clampQ (x : Q) : Q :=
  let m := if Qle_bool 1 x then 1 else x in
  if Qle_bool m 0 then 0 else m.

(** [Math.max(alpha, 0.1)] on a finite alpha *)
Definition safeQ (a : Q) : Q := if Qle_bool 0.1 a then a else 0.1.

(** [Number(x) || 0] on a finite [x] *)
Definition nzQ (a : Q) : Q := if negb (Qeq_bool a 0) then a else 0.

Definition sevQ (alpha theta delta : Q) : Q :=
  let alphaLow := clampQ ((9 + - alpha) / 9) in
  let thetaHigh := clampQ ((theta + - 5.5) / 5.5) in
  let deltaHigh := clampQ ((delta + - 3.5) / 3.5) in
  let safeAlpha := safeQ alpha in
  let tarNorm := clampQ ((theta / safeAlpha + - 0.4) / 1.2) in
  let darNorm := clampQ ((delta / safeAlpha + - 0.2) / 1.0) in
  let severity :=
    0.15 * alphaLow + 0.3 * thetaHigh + 0.3 * deltaHigh
    + 0.15 * tarNorm + 0.1 * darNorm in
  let severity :=
    if negb (Qle_bool theta alpha) && negb (Qle_bool delta alpha)
    then severity + 0.2 else severity in
  clampQ (severity * 1.4).

Lemma clamp_fin (x : Q) : clamp (Fin x) (Fin 0) (Fin 1) = Fin (clampQ x).
Proof.
  unfold clamp, clampQ. simpl.
  destruct (Qle_bool 1 x); simpl; try destruct (Qle_bool x 0); reflexivity.
Qed.

Lemma safeAlpha_fin_eq (a : Q) : Num.max (Fin a) (Fin 0.1) = Fin (safeQ a).
Proof. unfold safeQ. simpl. destruct (Qle_bool 0.1 a); reflexivity. Qed.

Lemma safeQ_ge (a : Q) : 0.1 <= safeQ a.
Proof.
  unfold safeQ. destruct (Qle_bool 0.1 a) eqn:E.
  - apply Qle_bool_iff; exact E.
  - lra.
Qed.

Lemma number_or_zero_fin (a : Q) : number_or_zero (Some (Fin a)) = Fin (nzQ a).
Proof. unfold number_or_zero, nzQ. simpl. destruct (negb (Qeq_bool a 0)); reflexivity. Qed.

Lemma nzQ_eq (a : Q) : nzQ a == a.
Proof.
  unfold nzQ. destruct (Qeq_bool a 0) eqn:E; simpl.
  - apply Qeq_bool_eq in E. rewrite E. reflexivity.
  - reflexivity.
Qed.

Lemma div_fin_nz (a c : Q) : ~ c == 0 -> (Fin a / Fin c)%js = Fin (a / c).
Proof.
  intros Hc. simpl. destruct (Qeq_bool c 0) eqn:E; [|reflexivity].
  apply Qeq_bool_eq in E. contradiction.
Qed.

Lemma computeStrokeSeverity_fin (a t d : Q) :
  computeStrokeSeverity (mkBands (Some (Fin a)) (Some (Fin t)) (Some (Fin d)))
  = Fin (sevQ (nzQ a) (nzQ t) (nzQ d)).
Proof.
  unfold computeStrokeSeverity. cbn [b_alpha b_theta b_delta].
  rewrite !number_or_zero_fin. cbv zeta.
  rewrite safeAlpha_fin_eq.
  cbn [Num.sub Num.neg Num.add].
  pose proof (safeQ_ge (nzQ a)) as Hs.
  rewrite !div_fin_nz by (intro H; lra).
  cbn [Num.sub Num.neg Num.add].
  rewrite !div_fin_nz by (intro H; lra).
  rewrite !clamp_fin.
  cbn [Num.mul Num.add Num.lt negb].
  unfold sevQ. cbv zeta.
  destruct (_ && _); cbn [Num.mul Num.add]; rewrite clamp_fin; reflexivity.
Qed.

End FiniteSeverity.

Section SeverityMonotone.

Lemma clampQ_mono (x y : Q) : x <= y -> clampQ x <= clampQ y.
Proof.
  intros H. unfold clampQ.
  destruct (Qle_bool 1 x) eqn:E1; destruct (Qle_bool 1 y) eqn:E2;
    try apply Qle_bool_iff in E1; try apply Qle_bool_iff in E2;
    try apply Qle_bool_false in E1; try apply Qle_bool_false in E2;
    simpl; try lra;
    destruct (Qle_bool x 0) eqn:E3; destruct (Qle_bool y 0) eqn:E4;
    try apply Qle_bool_iff in E3; try apply Qle_bool_iff in E4;
    try apply Qle_bool_false in E3; try apply Qle_bool_false in E4; lra.
Qed.

Lemma Qdiv_le_mono (x y c : Q) : 0 < c -> x <= y -> x / c <= y / c.
Proof.
  intros Hc H. unfold Qdiv. apply Qmult_le_compat_r; [exact H|].
  apply Qinv_le_0_compat. lra.
Qed.

Lemma Qdiv_le_anti (t p p' : Q) : 0 <= t -> 0 < p -> p <= p' -> t / p' <= t / p.
Proof.
  intros Ht Hp Hpp. apply Qle_shift_div_l; [exact Hp|].
  assert (Hu : (t / p') * p' == t).
  { rewrite Qmult_comm. apply Qmult_div_r. intro H. lra. }
  assert (Hu0 : 0 <= t / p').
  { unfold Qdiv. apply Qmult_le_0_compat; [exact Ht|]. apply Qinv_le_0_compat. lra. }
  assert (Hm : (t / p') * p <= (t / p') * p').
  { rewrite (Qmult_comm _ p), (Qmult_comm _ p').
    apply Qmult_le_compat_r; assumption. }
  lra.
Qed.

Lemma safeQ_mono (x y : Q) : x <= y -> safeQ x <= safeQ y.
Proof.
  intros H. unfold safeQ.
  destruct (Qle_bool 0.1 x) eqn:E1; destruct (Qle_bool 0.1 y) eqn:E2;
    try apply Qle_bool_iff in E1; try apply Qle_bool_iff in E2;
    try apply Qle_bool_false in E1; try apply Qle_bool_false in E2; lra.
Qed.

Lemma sevQ_antitone (x y t d : Q) :
  0 <= t -> 0 <= d -> x <= y -> sevQ y t d <= sevQ x t d.
Proof.
  intros Ht Hd Hxy. unfold sevQ. cbv zeta.
  pose proof (safeQ_ge x). pose proof (safeQ_ge y).
  pose proof (safeQ_mono x y Hxy).
  assert (A : clampQ ((9 + - y) / 9) <= clampQ ((9 + - x) / 9)).
  { apply clampQ_mono, Qdiv_le_mono; lra. }
  assert (T : clampQ ((t / safeQ y + - 0.4) / 1.2)
              <= clampQ ((t / safeQ x + - 0.4) / 1.2)).
  { apply clampQ_mono, Qdiv_le_mono; [lra|].
    pose proof (Qdiv_le_anti t (safeQ x) (safeQ y) Ht ltac:(lra) ltac:(lra)). lra. }
  assert (D : clampQ ((d / safeQ y + - 0.2) / 1.0)
              <= clampQ ((d / safeQ x + - 0.2) / 1.0)).
  { apply clampQ_mono, Qdiv_le_mono; [lra|].
    pose proof (Qdiv_le_anti d (safeQ x) (safeQ y) Hd ltac:(lra) ltac:(lra)). lra. }
  set (S := fun a => 0.15 * clampQ ((9 + - a) / 9) + 0.3 * clampQ ((t + - 5.5) / 5.5)
       + 0.3 * clampQ ((d + - 3.5) / 3.5) + 0.15 * clampQ ((t / safeQ a + - 0.4) / 1.2)
       + 0.1 * clampQ ((d / safeQ a + - 0.2) / 1.0)).
  assert (HS : S y <= S x) by (unfold S; lra).
  change (clampQ ((if negb (Qle_bool t y) && negb (Qle_bool d y)
                   then S y + 0.2 else S y) * 1.4)
          <= clampQ ((if negb (Qle_bool t x) && negb (Qle_bool d x)
                      then S x + 0.2 else S x) * 1.4)).
  apply clampQ_mono.
  destruct (Qle_bool t y) eqn:E1; destruct (Qle_bool d y) eqn:E2;
    destruct (Qle_bool t x) eqn:E3; destruct (Qle_bool d x) eqn:E4; simpl; try lra;
    try apply Qle_bool_iff in E3; try apply Qle_bool_iff in E4;
    try apply Qle_bool_false in E1; try apply Qle_bool_false in E2; lra.
Qed.

End SeverityMonotone.

(** C2. With theta and delta fixed and non-negative, lowering alpha inside
    [0, 9] never lowers the severity. *)
Theorem computeStrokeSeverity_alpha_antitone (a1 a2 theta delta : Q) :
  0 <= theta -> 0 <= delta -> 0 <= a2 -> a2 <= a1 -> a1 <= 9 ->
  Num.le
    (computeStrokeSeverity (mkBands (Some (Fin a1)) (Some (Fin theta)) (Some (Fin delta))))
    (computeStrokeSeverity (mkBands (Some (Fin a2)) (Some (Fin theta)) (Some (Fin delta))))
  = true.
Proof.
  intros Ht Hd H2 H21 H1.
  rewrite !computeStrokeSeverity_fin. simpl. apply Qle_bool_iff.
  pose proof (nzQ_eq a1). pose proof (nzQ_eq a2).
  pose proof (nzQ_eq theta). pose proof (nzQ_eq delta).
  apply sevQ_antitone; lra.
Qed.

(** the coercion the code performs on each field: [Number(x) || 0] maps a
    missing field and NaN to 0 and keeps every other number, the
    infinities included *)
Definition missing_or_nan_to_zero (v : option num) : option num :=
  match v with
  | None | Some NaN => Some (Fin 0)
  | Some x => Some x
  end.

Definition coerce_bands (v : bands) : bands :=
  mkBands (missing_or_nan_to_zero (b_alpha v))
          (missing_or_nan_to_zero (b_theta v))
          (missing_or_nan_to_zero (b_delta v)).

(** the finite coercion of the specification: every non-finite or missing
    value becomes 0 *)
Definition finite_coercion (v : option num) : option num :=
  match v with
  | Some (Fin q) => Some (Fin q)
  | _ => Some (Fin 0)
  end.

Definition finite_coerce_bands (v : bands) : bands :=
  mkBands (finite_coercion (b_alpha v)) (finite_coercion (b_theta v))
          (finite_coercion (b_delta v)).

Lemma number_or_zero_coerce (v : option num) :
  number_or_zero (missing_or_nan_to_zero v) = number_or_zero v.
Proof. destruct v as [[q| | |]|]; reflexivity. Qed.

(** C3 (amended). A missing or NaN field is replaced by 0 before scoring:
    the severity equals the severity of the record with those fields set
    to 0.  Infinite fields are kept as they are (see the counterexample).
    Being a total function, it raises no error. *)
Theorem computeStrokeSeverity_coerces_missing_and_nan (v : bands) :
  computeStrokeSeverity v = computeStrokeSeverity (coerce_bands v)
  /\ number_or_zero (Some PInf) = PInf /\ number_or_zero (Some NInf) = NInf.
Proof.
  split.
  - unfold computeStrokeSeverity, coerce_bands. cbn [b_alpha b_theta b_delta].
    rewrite !number_or_zero_coerce. reflexivity.
  - split; reflexivity.
Qed.

(** C3: counterexample.  theta = +Infinity is not replaced by 0: the
    severity of (0, +Infinity, 0) is 0.84, that of (0, 0, 0) is 0.21. *)
Lemma computeStrokeSeverity_infinity_not_coerced :
  computeStrokeSeverity (mkBands (Some (Fin 0)) (Some PInf) (Some (Fin 0)))
  <> computeStrokeSeverity
       (finite_coerce_bands (mkBands (Some (Fin 0)) (Some PInf) (Some (Fin 0)))).
Proof. vm_compute. discriminate. Qed.

(** C1: counterexample.  For alpha = theta = +Infinity the ratio
    [theta / safeAlpha] is NaN and so is the severity. *)
Lemma computeStrokeSeverity_nan_at_infinities :
  ~ in01 (computeStrokeSeverity (mkBands (Some PInf) (Some PInf) (Some (Fin 0)))).
Proof. vm_compute. intros (q & H & _). discriminate H. Qed.

Lemma computeStrokeSeverity_in_unit_interval_witness :
  in01 (computeStrokeSeverity (mkBands (Some (Fin 3)) None (Some NaN)))
  /\ computeStrokeSeverity (mkBands (Some PInf) (Some (Fin 1)) (Some NInf)) = NaN.
Proof.
  split.
  - apply (proj2 (computeStrokeSeverity_in_unit_interval
                    (mkBands (Some (Fin 3)) None (Some NaN)))).
    intros [H _]. discriminate H.
  - apply (proj1 (computeStrokeSeverity_in_unit_interval
                    (mkBands (Some PInf) (Some (Fin 1)) (Some NInf)))).
    split; reflexivity.
Defined.

Lemma computeStrokeSeverity_alpha_antitone_witness :
  Num.le
    (computeStrokeSeverity (mkBands (Some (Fin 8)) (Some (Fin 6)) (Some (Fin 4))))
    (computeStrokeSeverity (mkBands (Some (Fin 2)) (Some (Fin 6)) (Some (Fin 4))))
  = true.
Proof.
  apply (computeStrokeSeverity_alpha_antitone 8 2 6 4); vm_compute; discriminate.
Defined.

(* ------------------------------------------------------------------ *)
(** ** Trial records and interpolation (render part of App) *)

(** one row after loading: [{ subject, t, alpha, beta, theta, delta }] *)
Record trial : Type := mkTrial {
  tr_subject : string;
  tr_t : num;
  tr_alpha : num;
  tr_beta : num;
  tr_theta : num;
  tr_delta : num
}.

(** reading past the end of an array gives [undefined]; its fields read
    as NaN here (the code never does it: [i] stays below the length) *)
Definition no_trial : trial := mkTrial "" NaN NaN NaN NaN NaN.

Definition step : nat := 1.

(** [const target = Math.min(i + step, current.length - 1);] *)
Definition target (current : list trial) (i : nat) : nat :=
  Nat.min (i + step) (length current - 1).

(** [safe(lerp(A.f, B.f, tt))] with [A = current[i]], [B = current[target]] *)
Definition sample_field (f : trial -> num) (current : list trial) (i : nat) (tt : Q)
  : num :=
  let A := nth i current no_trial in
  let B := nth (target current i) current no_trial in
  safe (lerp (f A) (f B) (Fin tt)).

Section Interpolation.

Lemma sgn_nonneg (tt : Q) : 0 <= tt -> Num.sgn tt = None \/ Num.sgn tt = Some true.
Proof.
  intros H. unfold Num.sgn. destruct (Qeq_bool tt 0); [left; reflexivity|].
  right. rewrite (proj2 (Qle_bool_iff 0 tt) H). reflexivity.
Qed.

Lemma safe_lerp_fin (a b tt : Q) :
  safe (lerp (Fin a) (Fin b) (Fin tt)) = Fin (a + (b + - a) * tt).
Proof. reflexivity. Qed.

Lemma safe_lerp_nonfinite (x y : num) (tt : Q) :
  0 <= tt -> Num.isFinite x && Num.isFinite y = false ->
  safe (lerp x y (Fin tt)) = Fin 0.
Proof.
  intros Htt Hf. unfold lerp.
  destruct (sgn_nonneg tt Htt) as [Hs|Hs];
    destruct x as [a| | |]; destruct y as [b| | |]; try discriminate Hf;
    cbn [Num.sub Num.neg Num.add Num.mul]; rewrite ?Hs; reflexivity.
Qed.

Lemma target_last (current : list trial) (i : nat) :
  current <> [] -> i = (length current - 1)%nat -> target current i = i.
Proof.
  intros Hne ->. unfold target, step.
  destruct current; [congruence|]. simpl. lia.
Qed.

End Interpolation.

(** C4 (amended). For a field whose values at the bracketing samples A and
    B are finite numbers a and b, the sampled value is a + (b - a) * tt:
    a at 0, b at 1, 3 at 0.5 when a = 2 and b = 4; at the final trial
    (A = B) it is constantly [safe(A.field)] (A's value when finite); and
    when A's or B's value is not finite the sampled value is 0 for every
    fraction tt >= 0, since [safe] is applied after [lerp]. *)
Theorem sample_field_interpolation (f : trial -> num) (current : list trial) (i : nat) :
  (i < length current)%nat ->
  let A := f (nth i current no_trial) in
  let B := f (nth (target current i) current no_trial) in
  (forall a b, A = Fin a -> B = Fin b ->
     Num.same (sample_field f current i 0) (Fin a)
     /\ Num.same (sample_field f current i 1) (Fin b)
     /\ (forall tt, sample_field f current i tt = Fin (a + (b + - a) * tt)))
  /\ (A = Fin 2 -> B = Fin 4 -> Num.same (sample_field f current i 0.5) (Fin 3))
  /\ (i = (length current - 1)%nat ->
      forall tt, 0 <= tt -> Num.same (sample_field f current i tt) (safe A))
  /\ (Num.isFinite A && Num.isFinite B = false ->
      forall tt, 0 <= tt -> sample_field f current i tt = Fin 0).
Proof.
  intros Hi A B. unfold sample_field. fold A B.
  assert (Hnf : Num.isFinite A && Num.isFinite B = false ->
                forall tt, 0 <= tt -> safe (lerp A B (Fin tt)) = Fin 0).
  { intros Hf tt Htt. apply safe_lerp_nonfinite; assumption. }
  split; [|split; [|split]].
  - intros a b -> ->. rewrite !safe_lerp_fin. cbn [Num.same].
    split; [ring | split; [ring | reflexivity]].
  - intros -> ->. rewrite safe_lerp_fin. cbn [Num.same]. reflexivity.
  - intros Hlast tt Htt.
    assert (HB : B = A).
    { unfold B, A. rewrite target_last; [reflexivity | | exact Hlast].
      intros ->. simpl in Hi. lia. }
    rewrite HB. destruct A as [a| | |] eqn:EA.
    + rewrite safe_lerp_fin. cbn [safe Num.isFinite Num.same]. ring.
    + rewrite HB in Hnf. rewrite Hnf by (reflexivity || assumption). simpl. reflexivity.
    + rewrite HB in Hnf. rewrite Hnf by (reflexivity || assumption). simpl. reflexivity.
    + rewrite HB in Hnf. rewrite Hnf by (reflexivity || assumption). simpl. reflexivity.
  - exact Hnf.
Qed.

(** a subject series whose second trial misses its Alpha value *)
Definition series_missing_alpha : list trial :=
  [ mkTrial "1" (Fin 1) (Fin 5) (Fin 1) (Fin 1) (Fin 1);
    mkTrial "1" (Fin 2) NaN (Fin 1) (Fin 1) (Fin 1) ].

(** C4: counterexample.  At fraction 0 the sampled alpha is 0, not A's
    alpha 5, because B's alpha is NaN and [lerp] yields NaN before [safe]. *)
Lemma sample_field_fraction0_not_A :
  ~ Num.same (sample_field tr_alpha series_missing_alpha 0 0)
             (tr_alpha (nth 0 series_missing_alpha no_trial)).
Proof. vm_compute. intro H. discriminate H. Qed.

Lemma sample_field_interpolation_witness :
  Num.same (sample_field tr_alpha series_missing_alpha 1 0.3) (Fin 0)
  /\ Num.same (sample_field tr_theta series_missing_alpha 0 1) (Fin 1).
Proof.
  split.
  - apply (proj1 (proj2 (proj2 (sample_field_interpolation
             tr_alpha series_missing_alpha 1 ltac:(simpl; lia)))));
      [reflexivity | vm_compute; discriminate].
  - apply (proj1 (sample_field_interpolation
             tr_theta series_missing_alpha 0 ltac:(simpl; lia)) 1 1);
      reflexivity.
Defined.

(* ------------------------------------------------------------------ *)
(** ** Playback: React state, refs and the animation tick *)

(** The state of [App]: [subjects], [subjectIndex], [i], [playing] (React
    state) and [tRef.current], [lastTsRef.current] (refs).  Timestamps of
    [requestAnimationFrame] are finite, so [tRef] and [lastTsRef] are
    rationals.  State setters are applied at once: the effect is re-run
    with the new state long before the next step boundary. *)
Record playback : Type := mkPlayback {
  subjects : list (list trial);
  subjectIndex : nat;
  i : nat;
  tRef : Q;
  lastTsRef : Q;
  playing : bool
}.

Definition msPerStep : Q := 1200.

(** [const current = subjects[subjectIndex] || [];] *)
Definition current (s : playback) : list trial := nth (subjectIndex s) (subjects s) [].

(** [if (!lastTsRef.current) lastTsRef.current = ts; const dt = ts - lastTsRef.current;] *)
Definition elapsed (s : playback) (ts : Q) : Q :=
  ts - (if Qeq_bool (lastTsRef s) 0 then ts else lastTsRef s).

(** one animation frame at timestamp [ts]; with [current] empty the effect
    registers no frame callback at all, which leaves the state as it is *)
Definition tick (s : playback) (ts : Q) : playback :=
  match current s with
  | [] => s
  | _ =>
    if negb (playing s) then s
    else
      let lastTs := if Qeq_bool (lastTsRef s) 0 then ts else lastTsRef s in
      let dt := ts - lastTs in
      let lastTs := ts in
      let x := tRef s + dt / msPerStep in
      (* tRef.current = Math.min(1, tRef.current + dt / msPerStep) *)
      let t := if Qle_bool 1 x then 1 else x in
      if Qle_bool 1 t then
        let lastIndex := (length (current s) - 1)%nat in
        if Nat.ltb (i s) lastIndex then
          mkPlayback (subjects s) (subjectIndex s) (Nat.min (i s + step) lastIndex)
                     0 lastTs (playing s)
        else if Nat.ltb (subjectIndex s) (length (subjects s) - 1) then
          mkPlayback (subjects s) (subjectIndex s + 1) 0 0 0 (playing s)
        else
          mkPlayback (subjects s) (subjectIndex s) (i s) t lastTs false
      else mkPlayback (subjects s) (subjectIndex s) (i s) t lastTs (playing s)
  end.

(** Play/Pause button *)
Definition togglePlay (s : playback) : playback :=
  mkPlayback (subjects s) (subjectIndex s) (i s) (tRef s) 0 (negb (playing s)).

(** The Reset, Prev and Next buttons.  [restart] tells whether the handler
    ends with [setPlaying(true)]: it does in the first App of
    arrow_no_yellow.js and in both Apps of part_000, it does not in the
    second App of arrow_no_yellow.js. *)
Definition reset (restart : bool) (s : playback) : playback :=
  mkPlayback (subjects s) (subjectIndex s) 0 0 0 (restart || playing s).

(** [setSubjectIndex((subjectIndex - 1 + subjects.length) % subjects.length)] *)
Definition prevSubject (restart : bool) (s : playback) : playback :=
  let n := length (subjects s) in
  mkPlayback (subjects s) ((subjectIndex s + n - 1) mod n) 0 0 0 (restart || playing s).

(** [setSubjectIndex((subjectIndex + 1) % subjects.length)] *)
Definition nextSubject (restart : bool) (s : playback) : playback :=
  let n := length (subjects s) in
  mkPlayback (subjects s) ((subjectIndex s + 1) mod n) 0 0 0 (restart || playing s).

(** the state right after a CSV load: [playing] starts [true] *)
Definition loaded (ds : list (list trial)) : playback := mkPlayback ds 0 0 0 0 true.

(** the grouped dataset: at least one subject, every subject series
    non-empty (each group is created by pushing its first row) *)
Definition wf_dataset (ds : list (list trial)) : Prop :=
  ds <> [] /\ Forall (fun g => g <> []) ds.

(** one transition: a frame with non-negative elapsed time, or a button
    (the buttons are rendered only when [current] is non-empty) *)
Inductive transition (restart : bool) : playback -> playback -> Prop :=
| step_tick s ts : 0 <= elapsed s ts -> transition restart s (tick s ts)
| step_toggle s : current s <> [] -> transition restart s (togglePlay s)
| step_reset s : current s <> [] -> transition restart s (reset restart s)
| step_prev s : current s <> [] -> transition restart s (prevSubject restart s)
| step_next s : current s <> [] -> transition restart s (nextSubject restart s).

Inductive reachable (restart : bool) (ds : list (list trial)) : playback -> Prop :=
| reach_loaded : reachable restart ds (loaded ds)
| reach_step s s' : reachable restart ds s -> transition restart s s' -> reachable restart ds s'.

(** the cursor bounds *)
Definition cursor_ok (s : playback) : Prop :=
  (subjectIndex s < length (subjects s))%nat
  /\ (i s < length (current s))%nat
  /\ 0 <= tRef s /\ tRef s <= 1.

Definition cursor (s : playback) : nat * nat * Q := (subjectIndex s, i s, tRef s).

Section PlaybackFacts.

Lemma wf_nth_nonempty (ds : list (list trial)) (k : nat) :
  wf_dataset ds -> (k < length ds)%nat -> (0 < length (nth k ds []))%nat.
Proof.
  intros [_ Hall] Hk. rewrite Forall_forall in Hall.
  pose proof (Hall _ (nth_In ds [] Hk)) as H.
  destruct (nth k ds []); [congruence | simpl; lia].
Qed.

Lemma wf_length_pos (ds : list (list trial)) : wf_dataset ds -> (0 < length ds)%nat.
Proof. intros [Hne _]. destruct ds; [congruence | simpl; lia]. Qed.

Lemma step_over_ms_nonneg (e : Q) : 0 <= e -> 0 <= e / msPerStep.
Proof.
  intros He. unfold Qdiv. apply Qmult_le_0_compat; [exact He|].
  apply Qinv_le_0_compat. unfold msPerStep. lra.
Qed.

Lemma tick_subjects (s : playback) (ts : Q) : subjects (tick s ts) = subjects s.
Proof.
  unfold tick. destruct (current s); [reflexivity|].
  destruct (playing s); [|reflexivity]. cbv zeta.
  destruct (Qle_bool 1 _); [destruct (Qle_bool 1 1)|];
    repeat match goal with |- context [if ?b then _ else _] => destruct b end;
    reflexivity.
Qed.

Lemma tick_cursor_ok (s : playback) (ts : Q) :
  wf_dataset (subjects s) -> cursor_ok s -> 0 <= elapsed s ts ->
  cursor_ok (tick s ts).
Proof.
  intros Hwf (Hsi & Hi & Ht0 & Ht1) He.
  pose proof (step_over_ms_nonneg _ He) as Hd.
  unfold tick. destruct (current s) as [|tr rest] eqn:Ec.
  { simpl in Hi. lia. }
  destruct (playing s); cbn [negb]; [|unfold cursor_ok; rewrite Ec; repeat split; assumption].
  cbv zeta. fold (elapsed s ts).
  assert (Hcur : nth (subjectIndex s) (subjects s) [] = tr :: rest) by exact Ec.
  destruct (Qle_bool 1 (tRef s + elapsed s ts / msPerStep)) eqn:Ex.
  - change (Qle_bool 1 1) with true. cbv iota.
    destruct (Nat.ltb (i s) (length (tr :: rest) - 1)) eqn:E1.
    + apply Nat.ltb_lt in E1. unfold cursor_ok, current; cbn [subjects subjectIndex i tRef].
      rewrite Hcur. simpl in E1 |- *. repeat split; try lia; lra.
    + destruct (Nat.ltb (subjectIndex s) (length (subjects s) - 1)) eqn:E2.
      * apply Nat.ltb_lt in E2.
        pose proof (wf_nth_nonempty _ (subjectIndex s + 1) Hwf ltac:(lia)).
        unfold cursor_ok, current; cbn [subjects subjectIndex i tRef].
        repeat split; try lia; lra.
      * unfold cursor_ok, current; cbn [subjects subjectIndex i tRef].
        rewrite Hcur. repeat split; try lia; lra.
  - apply Qle_bool_false in Ex.
    destruct (Qle_bool 1 (tRef s + elapsed s ts / msPerStep)) eqn:Ex';
      [apply Qle_bool_iff in Ex'; lra|].
    unfold cursor_ok, current; cbn [subjects subjectIndex i tRef].
    rewrite Hcur. repeat split; try lia; lra.
Qed.

Lemma transition_subjects (restart : bool) (s s' : playback) :
  transition restart s s' -> subjects s' = subjects s.
Proof. intros H. destruct H; try reflexivity. apply tick_subjects. Qed.

Lemma transition_cursor_ok (restart : bool) (s s' : playback) :
  wf_dataset (subjects s) -> cursor_ok s -> transition restart s s' -> cursor_ok s'.
Proof.
  intros Hwf Hok H. pose proof (wf_length_pos _ Hwf) as Hn.
  destruct Hok as (Hsi & Hi & Ht0 & Ht1).
  destruct H as [s ts He | s Hc | s Hc | s Hc | s Hc].
  - apply tick_cursor_ok; [exact Hwf | repeat split; assumption | exact He].
  - repeat split; assumption.
  - unfold cursor_ok, current, reset; cbn [subjects subjectIndex i tRef].
    pose proof (wf_nth_nonempty _ _ Hwf Hsi). repeat split; try lia; lra.
  - unfold cursor_ok, current, prevSubject; cbn [subjects subjectIndex i tRef].
    assert (Hm : ((subjectIndex s + length (subjects s) - 1) mod length (subjects s)
                  < length (subjects s))%nat) by (apply Nat.mod_upper_bound; lia).
    pose proof (wf_nth_nonempty _ _ Hwf Hm). repeat split; try lia; lra.
  - unfold cursor_ok, current, nextSubject; cbn [subjects subjectIndex i tRef].
    assert (Hm : ((subjectIndex s + 1) mod length (subjects s)
                  < length (subjects s))%nat) by (apply Nat.mod_upper_bound; lia).
    pose proof (wf_nth_nonempty _ _ Hwf Hm). repeat split; try lia; lra.
Qed.

Lemma reachable_cursor_ok (restart : bool) (ds : list (list trial)) (s : playback) :
  wf_dataset ds -> reachable restart ds s -> subjects s = ds /\ cursor_ok s.
Proof.
  intros Hwf H. induction H as [|s s' Hr IH Ht].
  - split; [reflexivity|]. unfold cursor_ok, current, loaded; cbn.
    pose proof (wf_length_pos _ Hwf). pose proof (wf_nth_nonempty _ 0 Hwf H).
    repeat split; try lia; lra.
  - destruct IH as [Hs Hok]. split.
    + rewrite (transition_subjects _ _ _ Ht). exact Hs.
    + apply (transition_cursor_ok restart s); [rewrite Hs; exact Hwf | exact Hok | exact Ht].
Qed.

End PlaybackFacts.

(** C10. On a non-empty loaded dataset, from every reachable state, every
    frame with non-negative elapsed time and every button (Play/Pause,
    Reset, Prev, Next; in every variant) leads to a state whose cursor is
    within bounds: subjectIndex < number of subjects, i < length of the
    current series, 0 <= tRef <= 1. *)
Theorem transition_preserves_cursor_bounds
  (restart : bool) (ds : list (list trial)) (s s' : playback) :
  wf_dataset ds -> reachable restart ds s -> transition restart s s' ->
  cursor_ok s /\ cursor_ok s'.
Proof.
  intros Hwf Hr Ht. destruct (reachable_cursor_ok restart ds s Hwf Hr) as [Hs Hok].
  split; [exact Hok|].
  apply (transition_cursor_ok restart s); [rewrite Hs; exact Hwf | exact Hok | exact Ht].
Qed.

Lemma tick_paused (s : playback) (ts : Q) : playing s = false -> tick s ts = s.
Proof.
  intros Hp. unfold tick. destruct (current s); [reflexivity|]. rewrite Hp. reflexivity.
Qed.

Lemma fold_ticks_paused (tss : list Q) (s : playback) :
  playing s = false -> fold_left tick tss s = s.
Proof.
  revert s. induction tss as [|ts tss IH]; intros s Hp; [reflexivity|].
  simpl. rewrite tick_paused by exact Hp. apply IH, Hp.
Qed.

(** C5. On the last trial of the last subject, a playing frame that brings
    [tRef] to 1 stops playback ([playing] false) with the cursor kept and
    [tRef] = 1; every later frame leaves the cursor unchanged. *)
Theorem tick_end_of_dataset_is_terminal (s : playback) (ts : Q) :
  current s <> [] ->
  subjectIndex s = (length (subjects s) - 1)%nat ->
  i s = (length (current s) - 1)%nat ->
  playing s = true ->
  1 <= tRef s + elapsed s ts / msPerStep ->
  playing (tick s ts) = false
  /\ subjectIndex (tick s ts) = subjectIndex s
  /\ i (tick s ts) = i s
  /\ tRef (tick s ts) = 1
  /\ (forall tss : list Q, cursor (fold_left tick tss (tick s ts)) = cursor (tick s ts)).
Proof.
  intros Hc Hsi Hi Hp Hx.
  assert (Hend : playing (tick s ts) = false
                 /\ subjectIndex (tick s ts) = subjectIndex s
                 /\ i (tick s ts) = i s /\ tRef (tick s ts) = 1).
  { unfold tick. destruct (current s) as [|tr rest] eqn:Ec; [congruence|].
    rewrite Hp. cbn [negb]. cbv zeta. fold (elapsed s ts).
    rewrite (proj2 (Qle_bool_iff _ _) Hx). change (Qle_bool 1 1) with true. cbv iota.
    rewrite Hi, (proj2 (Nat.ltb_ge _ _) (Nat.le_refl _)).
    rewrite Hsi, (proj2 (Nat.ltb_ge _ _) (Nat.le_refl _)).
    cbn. repeat split; reflexivity. }
  destruct Hend as (H1 & H2 & H3 & H4).
  repeat split; try assumption.
  intros tss. rewrite fold_ticks_paused by exact H1. reflexivity.
Qed.

(** a one-subject dataset with two trials *)
Definition demo_dataset : list (list trial) :=
  [ [ mkTrial "7" (Fin 1) (Fin 9) (Fin 10) (Fin 5) (Fin 3);
      mkTrial "7" (Fin 2) (Fin 6) (Fin 8) (Fin 6) (Fin 5) ] ].

Lemma demo_dataset_wf : wf_dataset demo_dataset.
Proof. split; [discriminate | repeat constructor; discriminate]. Qed.

(** a second small dataset, with two subjects *)
Definition demo_two_subjects : list (list trial) :=
  demo_dataset ++
  [ [ mkTrial "8" (Fin 1) (Fin 7) (Fin 9) (Fin 6) (Fin 4) ] ].

Lemma demo_two_subjects_wf : wf_dataset demo_two_subjects.
Proof. split; [discriminate | repeat constructor; discriminate]. Qed.

Lemma tick_end_of_dataset_is_terminal_witness :
  playing (tick (mkPlayback demo_dataset 0 1 0.5 1000 true) 1600) = false
  /\ cursor (fold_left tick [1700; 1800; 5000]
                (tick (mkPlayback demo_dataset 0 1 0.5 1000 true) 1600))
     = cursor (tick (mkPlayback demo_dataset 0 1 0.5 1000 true) 1600).
Proof.
  destruct (tick_end_of_dataset_is_terminal (mkPlayback demo_dataset 0 1 0.5 1000 true) 1600
              ltac:(discriminate) eq_refl eq_refl eq_refl
              ltac:(vm_compute; discriminate)) as (Hp & _ & _ & _ & Hf).
  split; [exact Hp | apply Hf].
Defined.

Lemma transition_preserves_cursor_bounds_witness :
  cursor_ok (tick (tick (tick (loaded demo_two_subjects) 1000) 2300) 3500)
  /\ cursor (tick (tick (loaded demo_two_subjects) 1000) 2300) = (0%nat, 1%nat, 0)
  /\ cursor (tick (tick (tick (loaded demo_two_subjects) 1000) 2300) 3500) = (1%nat, 0%nat, 0).
Proof.
  split; [|split; vm_compute; reflexivity].
  apply (proj2 (transition_preserves_cursor_bounds true demo_two_subjects
    (tick (tick (loaded demo_two_subjects) 1000) 2300)
    (tick (tick (tick (loaded demo_two_subjects) 1000) 2300) 3500)
    demo_two_subjects_wf
    (reach_step _ _ _ _
       (reach_step _ _ _ _ (reach_loaded _ _)
          (step_tick true (loaded demo_two_subjects) 1000 ltac:(apply Qle_bool_iff; vm_compute; reflexivity)))
       (step_tick true (tick (loaded demo_two_subjects) 1000) 2300 ltac:(apply Qle_bool_iff; vm_compute; reflexivity)))
    (step_tick true (tick (tick (loaded demo_two_subjects) 1000) 2300) 3500 ltac:(apply Qle_bool_iff; vm_compute; reflexivity)))).
Defined.

(** Reset in the Apps that end it with [setPlaying(true)] *)
Lemma reset_restart_effect (s : playback) :
  i (reset true s) = 0%nat /\ tRef (reset true s) = 0 /\ lastTsRef (reset true s) = 0
  /\ playing (reset true s) = true /\ subjectIndex (reset true s) = subjectIndex s.
Proof. repeat split. Qed.

(** C6 (code bug). In the second App of arrow_no_yellow.js the Reset
    handler clears [i], [tRef] and [lastTsRef] but does not call
    [setPlaying(true)]: from a paused state it stays paused. *)
Theorem reset_basic_app_stays_paused :
  let s := mkPlayback demo_dataset 0 1 0.5 1000 false in
  i (reset false s) = 0%nat /\ tRef (reset false s) = 0
  /\ lastTsRef (reset false s) = 0 /\ playing (reset false s) = false.
Proof. repeat split. Qed.

(* ------------------------------------------------------------------ *)
(** ** CSV rows (Papa.parse with [header] and [dynamicTyping]) *)

(** a cell after dynamic typing *)
Inductive jsval : Type :=
| JUndefined
| JNull
| JBool (b : bool)
| JNum (n : num)
| JStr (s : string).

Record csv_row : Type := mkRow {
  c_subject_number : jsval;
  c_trial_number : jsval;
  c_Alpha : jsval;
  c_Beta : jsval;
  c_Theta : jsval;
  c_Delta : jsval
}.

(** [x != null] *)
Definition not_nullish (v : jsval) : bool :=
  match v with JUndefined | JNull => false | _ => true end.

(** truthiness of a cell, as in [r["trial_number"] && r["subject_number"]] *)
Definition js_truthy (v : jsval) : bool :=
  match v with
  | JUndefined | JNull => false
  | JBool b => b
  | JNum n => Num.truthy n
  | JStr s => negb (String.eqb s "")
  end.

Section Loading.

(** JavaScript's [Number] on a string and [String] on a cell *)
Variable string_to_number : string -> num.
Variable js_String : jsval -> string.

(** [Number(v)] *)
Definition to_number (v : jsval) : num :=
  match v with
  | JUndefined => NaN
  | JNull => Fin 0
  | JBool b => if b then Fin 1 else Fin 0
  | JNum n => n
  | JStr s => string_to_number s
  end.

(** the [.map] of the loader: [{ subject: String(..), t: Number(..), alpha: Number(..), ... }] *)
Definition row_to_trial (r : csv_row) : trial :=
  mkTrial (js_String (c_subject_number r)) (to_number (c_trial_number r))
          (to_number (c_Alpha r)) (to_number (c_Beta r))
          (to_number (c_Theta r)) (to_number (c_Delta r)).

(** first App of arrow_no_yellow.js:
    [.filter((r) => r["trial_number"] != null && r["subject_number"] != null)
     .map(...) .filter((r) => Number.isFinite(r.t))].
    The Apps of part_000 filter the same way and compute [subject] and [t]
    the same way, so they keep the same rows with the same [subject] and
    [t]; their [.map] differs in the band fields ([Number(x) || 0]) and
    adds [slope] and [bsi], which this definition does not model. *)
Definition load_rows (rows : list csv_row) : list trial :=
  filter (fun r => Num.isFinite (tr_t r))
    (map row_to_trial
       (filter (fun r => not_nullish (c_trial_number r) && not_nullish (c_subject_number r))
          rows)).

(** second App of arrow_no_yellow.js:
    [.filter((r) => r["trial_number"] && r["subject_number"])
     .map(...) .filter((r) => !isNaN(r.t))] *)
Definition load_rows_basic (rows : list csv_row) : list trial :=
  filter (fun r => negb (Num.isNaN (tr_t r)))
    (map row_to_trial
       (filter (fun r => js_truthy (c_trial_number r) && js_truthy (c_subject_number r))
          rows)).

(** the rows [load_rows] keeps *)
Definition row_kept (r : csv_row) : bool :=
  not_nullish (c_subject_number r) && not_nullish (c_trial_number r)
  && Num.isFinite (to_number (c_trial_number r)).

End Loading.

(** Part of JavaScript's [StringToNumber]: the empty string is 0, and a
    string holding an ASCII letter that occurs in no numeric literal (the
    letters of numeric literals are the exponent and radix markers, the hex
    digits and those of "Infinity") is NaN; the value of the remaining
    strings is left to [rest]. *)
Definition numeric_literal_letters : string := "eExXoObBaAcCdDfFInity".

Definition foreign_letter (c : Ascii.ascii) : bool :=
  let n := Ascii.nat_of_ascii c in
  ((Nat.leb 65 n && Nat.leb n 90) || (Nat.leb 97 n && Nat.leb n 122))
  && negb (existsb (Ascii.eqb c) (list_ascii_of_string numeric_literal_letters)).

Definition string_to_number_model (rest : string -> num) (s : string) : num :=
  if String.eqb s "" then Fin 0
  else if existsb foreign_letter (list_ascii_of_string s) then NaN
  else rest s.

(** C7 (amended). In the Apps that test [!= null], a row is dropped before
    grouping exactly when its subject_number or trial_number is null or
    undefined, or when [Number(trial_number)] is not finite; every other
    row is kept, in order, in particular a row whose trial_number is 0. *)
Theorem load_rows_keeps_exactly
  (string_to_number : string -> num) (js_String : jsval -> string) (rows : list csv_row) :
  load_rows string_to_number js_String rows
  = map (row_to_trial string_to_number js_String) (filter (row_kept string_to_number) rows)
  /\ (forall r, row_kept string_to_number r = true <->
        c_subject_number r <> JUndefined /\ c_subject_number r <> JNull
        /\ c_trial_number r <> JUndefined /\ c_trial_number r <> JNull
        /\ Num.isFinite (to_number string_to_number (c_trial_number r)) = true)
  /\ (forall r, not_nullish (c_subject_number r) = true -> c_trial_number r = JNum (Fin 0) ->
        load_rows string_to_number js_String [r]
        = [row_to_trial string_to_number js_String r]).
Proof.
  split; [|split].
  - unfold load_rows. induction rows as [|r rows IH]; [reflexivity|].
    simpl. unfold row_kept at 1.
    destruct (not_nullish (c_trial_number r)); destruct (not_nullish (c_subject_number r));
      simpl; try exact IH.
    destruct (Num.isFinite (to_number string_to_number (c_trial_number r))); simpl;
      rewrite IH; reflexivity.
  - intros r. unfold row_kept.
    destruct (c_subject_number r), (c_trial_number r); simpl;
      split; intuition congruence.
  - intros r Hs Ht. unfold load_rows. simpl. rewrite Ht, Hs. simpl. unfold row_to_trial. rewrite Ht. reflexivity.
Qed.

(** a row whose trial number is the string "NA" *)
Definition row_trial_NA : csv_row :=
  mkRow (JNum (Fin 1)) (JStr "NA") (JNum (Fin 9)) (JNum (Fin 10)) (JNum (Fin 5)) (JNum (Fin 3)).

(** C7: counterexample.  The row has both subject_number and trial_number,
    yet [Number("NA")] is NaN and the row is dropped by the finiteness
    filter. *)
Lemma load_rows_drops_present_nonnumeric_trial :
  load_rows (string_to_number_model (fun _ => NaN)) (fun _ => "1"%string) [row_trial_NA] = []
  /\ c_subject_number row_trial_NA <> JUndefined /\ c_subject_number row_trial_NA <> JNull
  /\ c_trial_number row_trial_NA <> JUndefined /\ c_trial_number row_trial_NA <> JNull.
Proof. vm_compute. repeat split; discriminate. Qed.

(** In the second App of arrow_no_yellow.js the truthiness test also drops
    a row whose trial_number is 0. *)
Lemma load_rows_basic_drops_trial_zero :
  load_rows_basic (string_to_number_model (fun _ => NaN)) (fun _ => "1"%string)
    [mkRow (JNum (Fin 1)) (JNum (Fin 0)) (JNum (Fin 9)) (JNum (Fin 10)) (JNum (Fin 5)) (JNum (Fin 3))]
  = [].
Proof. reflexivity. Qed.

(* ------------------------------------------------------------------ *)
(** ** Gauge ranges *)

(** [const ADR = alpha / Math.max(delta, 0.1);] (stored per row) *)
Definition ADR (r : trial) : num := (tr_alpha r / Num.max (tr_delta r) (Fin 0.1))%js.

(** [const TAR = theta / Math.max(alpha, 0.1);] *)
Definition TAR (r : trial) : num := (tr_theta r / Num.max (tr_alpha r) (Fin 0.1))%js.

(** [===] on numbers *)
Definition strict_eq (x y : num) : bool :=
  match x, y with
  | Fin a, Fin b => Qeq_bool a b
  | PInf, PInf | NInf, NInf => true
  | _, _ => false
  end.

(** [Math.min(...vals)] and [Math.max(...vals)] *)
Definition min_of (vals : list num) : num := fold_left Num.min vals PInf.
Definition max_of (vals : list num) : num := fold_left Num.max vals NInf.

Definition subjectMinMax (rows : list trial) (key : trial -> num) : num * num :=
  let vals := filter Num.isFinite (map key rows) in
  match vals with
  | [] => (Fin 0, Fin 1)
  | _ =>
    let min := min_of vals in
    let max := max_of vals in
    if strict_eq min max then
      let eps := Num.max (Fin 0.001) (Num.abs min * Fin 0.05)%js in
      ((min - eps)%js, (max + eps)%js)
    else (min, max)
  end.

(** first App of arrow_no_yellow.js:
    [const adrRange = subjectMinMax(current, "ADR");], computed at every
    render from the active subject *)
Definition gauge_range (s : playback) (key : trial -> num) : num * num :=
  subjectMinMax (current s) key.

(** Apps of part_000: [min={stats.adrMin} max={stats.adrMax}], with
    [adrMin = Math.min(...adrs, 0)], [adrMax = Math.max(...adrs, 1)] over
    all loaded rows, set once per load *)
Definition gauge_range_dataset (all_rows : list trial) (key : trial -> num) (s : playback)
  : num * num :=
  let vals := filter Num.isFinite (map key all_rows) in
  (min_of (vals ++ [Fin 0]), max_of (vals ++ [Fin 1])).

Section OrderFacts.

Lemma le_trans (x y z : num) : Num.le x y = true -> Num.le y z = true -> Num.le x z = true.
Proof.
  destruct x as [a| | |], y as [b| | |], z as [c| | |]; simpl; try discriminate; auto.
  intros H1 H2. apply Qle_bool_iff in H1, H2. apply Qle_bool_iff. lra.
Qed.

Lemma le_refl_fin (q : Q) : Num.le (Fin q) (Fin q) = true.
Proof. simpl. apply Qle_bool_iff. lra. Qed.

Lemma min_fin (a b : Q) :
  Num.min (Fin a) (Fin b) = Fin (if Qle_bool a b then a else b).
Proof. simpl. destruct (Qle_bool a b); reflexivity. Qed.

Lemma max_fin (a b : Q) :
  Num.max (Fin a) (Fin b) = Fin (if Qle_bool b a then a else b).
Proof. simpl. destruct (Qle_bool b a); reflexivity. Qed.

(** folding [Math.min] from a finite accumulator over finite values *)
Lemma fold_min_fin (l : list num) (a : Q) :
  Forall (fun x => Num.isFinite x = true) l ->
  exists m, fold_left Num.min l (Fin a) = Fin m /\ m <= a
            /\ Forall (fun x => Num.le (Fin m) x = true) l.
Proof.
  revert a. induction l as [|x l IH]; intros a Hl.
  - exists a. repeat split; [lra | constructor].
  - inversion Hl as [|? ? Hx Hl']; subst.
    destruct x as [b| | |]; try discriminate. cbn [fold_left].
    destruct (IH (if Qle_bool a b then a else b) Hl') as (m & Hm & Hma & Hall).
    rewrite min_fin, Hm. exists m.
    destruct (Qle_bool a b) eqn:E;
      [apply Qle_bool_iff in E | apply Qle_bool_false in E].
    all: repeat split; try lra; try constructor; try assumption;
      simpl; apply Qle_bool_iff; lra.
Qed.

Lemma fold_max_fin (l : list num) (a : Q) :
  Forall (fun x => Num.isFinite x = true) l ->
  exists m, fold_left Num.max l (Fin a) = Fin m /\ a <= m
            /\ Forall (fun x => Num.le x (Fin m) = true) l.
Proof.
  revert a. induction l as [|x l IH]; intros a Hl.
  - exists a. repeat split; [lra | constructor].
  - inversion Hl as [|? ? Hx Hl']; subst.
    destruct x as [b| | |]; try discriminate. cbn [fold_left].
    destruct (IH (if Qle_bool b a then a else b) Hl') as (m & Hm & Hma & Hall).
    rewrite max_fin, Hm. exists m.
    destruct (Qle_bool b a) eqn:E;
      [apply Qle_bool_iff in E | apply Qle_bool_false in E].
    all: repeat split; try lra; try constructor; try assumption;
      simpl; apply Qle_bool_iff; lra.
Qed.

End OrderFacts.

Lemma subjectMinMax_bounds (rows : list trial) (key : trial -> num) :
  exists lo hi, subjectMinMax rows key = (Fin lo, Fin hi) /\ lo < hi
    /\ (forall r q, In r rows -> key r = Fin q -> lo <= q /\ q <= hi).
Proof.
  unfold subjectMinMax.
  assert (Hin : forall r q, In r rows -> key r = Fin q ->
                In (Fin q) (filter Num.isFinite (map key rows))).
  { intros r q Hr Hk. apply filter_In. split; [|reflexivity].
    rewrite <- Hk. apply in_map, Hr. }
  assert (Hfin : Forall (fun x => Num.isFinite x = true) (filter Num.isFinite (map key rows))).
  { apply Forall_forall. intros x Hx. apply filter_In in Hx. apply Hx. }
  destruct (filter Num.isFinite (map key rows)) as [|v vs] eqn:Ev.
  - exists 0, 1. split; [reflexivity|]. split; [lra|].
    intros r q Hr Hk. destruct (Hin r q Hr Hk).
  - inversion Hfin as [|? ? Hv Hvs]; subst.
    destruct v as [b| | |]; try discriminate.
    unfold min_of, max_of. cbn [fold_left].
    change (Num.min PInf (Fin b)) with (Fin b). change (Num.max NInf (Fin b)) with (Fin b).
    destruct (fold_min_fin vs b Hvs) as (m & Hm & Hmb & Hmall).
    destruct (fold_max_fin vs b Hvs) as (M & HM & HbM & HMall).
    rewrite Hm, HM.
    assert (Hq : forall r q, In r rows -> key r = Fin q -> m <= q /\ q <= M).
    { intros r q Hr Hk. specialize (Hin r q Hr Hk). destruct Hin as [Heq|Hvs'].
      - injection Heq as ->. split; lra.
      - rewrite Forall_forall in Hmall, HMall.
        specialize (Hmall _ Hvs'). specialize (HMall _ Hvs'). simpl in Hmall, HMall.
        apply Qle_bool_iff in Hmall, HMall. split; assumption. }
    cbn [strict_eq]. destruct (Qeq_bool m M) eqn:E.
    + cbn [Num.abs Num.mul].
      set (e := if Qle_bool (Qabs m * 0.05) 0.001 then 0.001 else Qabs m * 0.05).
      assert (He : 0.001 <= e).
      { unfold e. destruct (Qle_bool (Qabs m * 0.05) 0.001) eqn:E2; [lra|].
        apply Qle_bool_false in E2. lra. }
      assert (Hmax : Num.max (Fin 0.001) (Fin (Qabs m * 0.05)) = Fin e) by apply max_fin.
      rewrite Hmax. cbn [Num.sub Num.add Num.neg].
      exists (m + - e), (M + e). split; [reflexivity|]. split; [lra|].
      intros r q Hr Hk. destruct (Hq r q Hr Hk). split; lra.
    + exists m, M. split; [reflexivity|]. split.
      * assert (Hne : ~ m == M) by (intro H; apply Qeq_bool_iff in H; congruence).
        destruct (Qlt_le_dec m M) as [Hlt|Hle]; [exact Hlt|].
        exfalso. apply Hne. lra.
      * exact Hq.
Qed.

Section RangeExact.

Lemma fold_min_mem (l : list num) : forall (a m : Q),
  Forall (fun x => Num.isFinite x = true) l ->
  fold_left Num.min l (Fin a) = Fin m -> m = a \/ In (Fin m) l.
Proof.
  induction l as [|x l IH]; intros a m Hl E; cbn [fold_left] in E.
  - injection E as ->. left. reflexivity.
  - inversion Hl as [|? ? Hx Hl']; subst. destruct x as [b| | |]; try discriminate.
    rewrite min_fin in E. destruct (IH _ _ Hl' E) as [Hm|Hm].
    + destruct (Qle_bool a b); [left; exact Hm | right; left; rewrite Hm; reflexivity].
    + right. right. exact Hm.
Qed.

Lemma fold_max_mem (l : list num) : forall (a m : Q),
  Forall (fun x => Num.isFinite x = true) l ->
  fold_left Num.max l (Fin a) = Fin m -> m = a \/ In (Fin m) l.
Proof.
  induction l as [|x l IH]; intros a m Hl E; cbn [fold_left] in E.
  - injection E as ->. left. reflexivity.
  - inversion Hl as [|? ? Hx Hl']; subst. destruct x as [b| | |]; try discriminate.
    rewrite max_fin in E. destruct (IH _ _ Hl' E) as [Hm|Hm].
    + destruct (Qle_bool b a); [left; exact Hm | right; left; rewrite Hm; reflexivity].
    + right. right. exact Hm.
Qed.

(** the exact value of [subjectMinMax]: (0, 1) without a finite value;
    otherwise (m, M), the least and the greatest finite value, widened on
    both sides by [Math.max(0.001, Math.abs(min) * 0.05)] when m === M *)
Lemma subjectMinMax_exact (rows : list trial) (key : trial -> num) :
  (filter Num.isFinite (map key rows) = [] -> subjectMinMax rows key = (Fin 0, Fin 1))
  /\ (filter Num.isFinite (map key rows) <> [] ->
      exists m M, (exists r, In r rows /\ key r = Fin m)
        /\ (exists r, In r rows /\ key r = Fin M)
        /\ (forall r q, In r rows -> key r = Fin q -> m <= q /\ q <= M)
        /\ (let e := if Qle_bool (Qabs m * 0.05) 0.001 then 0.001 else Qabs m * 0.05 in
            m == M -> subjectMinMax rows key = (Fin (m + - e), Fin (M + e)))
        /\ (~ m == M -> subjectMinMax rows key = (Fin m, Fin M))).
Proof.
  unfold subjectMinMax.
  assert (Hin : forall r q, In r rows -> key r = Fin q ->
                In (Fin q) (filter Num.isFinite (map key rows))).
  { intros r q Hr Hk. apply filter_In. split; [|reflexivity].
    rewrite <- Hk. apply in_map, Hr. }
  assert (Hout : forall q, In (Fin q) (filter Num.isFinite (map key rows)) ->
                 exists r, In r rows /\ key r = Fin q).
  { intros q Hq. apply filter_In in Hq as [Hq _]. apply in_map_iff in Hq as (r & Hk & Hr).
    exists r. split; assumption. }
  assert (Hfin : Forall (fun x => Num.isFinite x = true) (filter Num.isFinite (map key rows))).
  { apply Forall_forall. intros x Hx. apply filter_In in Hx. apply Hx. }
  destruct (filter Num.isFinite (map key rows)) as [|v vs] eqn:Ev.
  { split; [reflexivity | intros H; contradiction]. }
  split; [discriminate|]. intros _.
  inversion Hfin as [|? ? Hv Hvs]; subst.
  destruct v as [b| | |]; try discriminate.
  unfold min_of, max_of. cbn [fold_left].
  change (Num.min PInf (Fin b)) with (Fin b). change (Num.max NInf (Fin b)) with (Fin b).
  destruct (fold_min_fin vs b Hvs) as (m & Hm & Hmb & Hmall).
  destruct (fold_max_fin vs b Hvs) as (M & HM & HbM & HMall).
  rewrite Hm, HM. exists m, M.
  assert (Hq : forall r q, In r rows -> key r = Fin q -> m <= q /\ q <= M).
  { intros r q Hr Hk. specialize (Hin r q Hr Hk). destruct Hin as [Heq|Hvs'].
    - injection Heq as ->. split; lra.
    - rewrite Forall_forall in Hmall, HMall.
      specialize (Hmall _ Hvs'). specialize (HMall _ Hvs'). simpl in Hmall, HMall.
      apply Qle_bool_iff in Hmall, HMall. split; assumption. }
  split; [|split; [|split; [exact Hq|]]].
  - apply Hout. destruct (fold_min_mem vs b m Hvs Hm) as [->|H]; [left; reflexivity | right; exact H].
  - apply Hout. destruct (fold_max_mem vs b M Hvs HM) as [->|H]; [left; reflexivity | right; exact H].
  - cbn [strict_eq]. split.
    + cbv zeta. intros Heq. apply Qeq_bool_iff in Heq. rewrite Heq.
      cbn [Num.abs Num.mul]. rewrite max_fin. reflexivity.
    + intros Hne. destruct (Qeq_bool m M) eqn:E; [apply Qeq_bool_iff in E; contradiction|].
      reflexivity.
Qed.

End RangeExact.

(** C8 (amended). In the first App of arrow_no_yellow.js the gauge Range is
    computed at every render by [subjectMinMax] from the active subject's
    own rows: two states with the same active series get the same Range,
    whatever the other subjects hold; the Range (min, max) is finite with
    min < max and contains every finite ratio value of the subject.  It is
    (0, 1) when the subject has no finite value; otherwise, with m and M
    the least and the greatest finite value, it is (m, M) when m < M and
    (m - eps, M + eps) with eps = max(0.001, 5% of |m|) when m = M.  The
    Apps of part_000 use one dataset-wide Range, the same for every
    playback state. *)
Theorem gauge_range_per_active_subject (key : trial -> num) (s : playback) :
  (forall s', current s' = current s -> gauge_range s' key = gauge_range s key)
  /\ (exists lo hi, gauge_range s key = (Fin lo, Fin hi) /\ lo < hi
        /\ forall r q, In r (current s) -> key r = Fin q -> lo <= q /\ q <= hi)
  /\ ((forall r, In r (current s) -> Num.isFinite (key r) = false) ->
      gauge_range s key = (Fin 0, Fin 1))
  /\ (forall r0 q0, In r0 (current s) -> key r0 = Fin q0 ->
      exists m M, (exists r, In r (current s) /\ key r = Fin m)
        /\ (exists r, In r (current s) /\ key r = Fin M)
        /\ (forall r q, In r (current s) -> key r = Fin q -> m <= q /\ q <= M)
        /\ (let eps := if Qle_bool (Qabs m * 0.05) 0.001 then 0.001 else Qabs m * 0.05 in
            m == M -> gauge_range s key = (Fin (m + - eps), Fin (M + eps)))
        /\ (~ m == M -> gauge_range s key = (Fin m, Fin M)))
  /\ (forall all_rows s', gauge_range_dataset all_rows key s'
                          = gauge_range_dataset all_rows key s).
Proof.
  destruct (subjectMinMax_exact (current s) key) as [Hnone Hsome].
  unfold gauge_range.
  split; [|split; [|split; [|split]]].
  - intros s' Hc. rewrite Hc. reflexivity.
  - apply subjectMinMax_bounds.
  - intros Hnf. apply Hnone.
    destruct (filter Num.isFinite (map key (current s))) as [|x xs] eqn:E; [reflexivity|].
    exfalso. assert (Hx : In x (filter Num.isFinite (map key (current s)))) by (rewrite E; left; reflexivity).
    apply filter_In in Hx as [Hx Hf]. apply in_map_iff in Hx as (r & <- & Hr).
    rewrite (Hnf r Hr) in Hf. discriminate.
  - intros r0 q0 Hr0 Hk0. apply Hsome. intros E.
    assert (Hx : In (Fin q0) (filter Num.isFinite (map key (current s)))).
    { apply filter_In. split; [rewrite <- Hk0; apply in_map, Hr0 | reflexivity]. }
    rewrite E in Hx. destruct Hx.
  - intros all_rows s'. reflexivity.
Qed.

(** two subjects: ADR values 1, 2, 3 and 1, 3 *)
Definition two_subjects : list (list trial) :=
  [ [ mkTrial "1" (Fin 1) (Fin 1) (Fin 0) (Fin 0) (Fin 1);
      mkTrial "1" (Fin 2) (Fin 2) (Fin 0) (Fin 0) (Fin 1);
      mkTrial "1" (Fin 3) (Fin 3) (Fin 0) (Fin 0) (Fin 1) ];
    [ mkTrial "2" (Fin 1) (Fin 1) (Fin 0) (Fin 0) (Fin 1);
      mkTrial "2" (Fin 2) (Fin 3) (Fin 0) (Fin 0) (Fin 1) ] ].

(** C8: counterexample.  The two subjects have different sets of ADR values
    ({1,2,3} and {1,3}) and the same gauge Range (1, 3). *)
Lemma gauge_range_same_for_different_values :
  map ADR (nth 0 two_subjects []) <> map ADR (nth 1 two_subjects [])
  /\ gauge_range (mkPlayback two_subjects 0 0 0 0 true) ADR
     = gauge_range (mkPlayback two_subjects 1 0 0 0 true) ADR.
Proof. vm_compute. split; [discriminate | reflexivity]. Qed.

(** one subject whose ADR values 2/1 and 4/2 are all equal to 2 *)
Definition equal_adr_subject : list (list trial) :=
  [ [ mkTrial "3" (Fin 1) (Fin 2) (Fin 0) (Fin 0) (Fin 1);
      mkTrial "3" (Fin 2) (Fin 4) (Fin 0) (Fin 0) (Fin 2) ] ].

Lemma gauge_range_per_active_subject_witness :
  exists lo hi, gauge_range (mkPlayback equal_adr_subject 0 0 0 0 true) ADR = (Fin lo, Fin hi)
    /\ lo == 1.9 /\ hi == 2.1.
Proof.
  destruct (proj1 (proj2 (proj2 (proj2
    (gauge_range_per_active_subject ADR (mkPlayback equal_adr_subject 0 0 0 0 true)))))
    (mkTrial "3" (Fin 1) (Fin 2) (Fin 0) (Fin 0) (Fin 1)) 2
    (or_introl eq_refl) ltac:(vm_compute; reflexivity))
    as (m & M & (r1 & Hr1 & Hk1) & (r2 & Hr2 & Hk2) & _ & Heq & _).
  cbn [current subjects subjectIndex equal_adr_subject nth] in Hr1, Hr2. cbv zeta in Heq.
  destruct Hr1 as [<-|[<-|[]]]; destruct Hr2 as [<-|[<-|[]]];
    vm_compute in Hk1, Hk2; injection Hk1 as <-; injection Hk2 as <-;
    rewrite Heq by (vm_compute; reflexivity);
    do 2 eexists; (split; [reflexivity | split; vm_compute; reflexivity]).
Defined.

(** ** Trend alert of [AperiodicSlopeChart] (part_000) *)

Record slope_point : Type := mkSlopePoint { sp_time : option num; sp_slope : option num }.

Inductive alert : Type := HIGH | MEDIUM | NORMAL.

(** [arr.slice(start, end)] for indices that are not negative *)
Definition js_slice {A} (l : list A) (start stop : nat) : list A :=
  skipn start (firstn stop l).

Definition recentWindow : nat := 5.

(** [Math.max(0, currentIndex - recentWindow)]: truncated subtraction on nat *)
Definition slopeChange (recentSlopes : list num) : num :=
  if Nat.ltb 1 (length recentSlopes)
  then Num.div (Num.abs (Num.sub (nth (length recentSlopes - 1) recentSlopes NaN)
                                 (nth 0 recentSlopes NaN)))
               (Num.of_nat (length recentSlopes))
  else Fin 0.

Definition alertLevel (change : num) : alert :=
  if Num.lt (Fin 0.3) change then HIGH
  else if Num.lt (Fin 0.15) change then MEDIUM
  else NORMAL.

(** the alert computed by [AperiodicSlopeChart]; [None] is the [return null] *)
Definition AperiodicSlopeChart_alert (history : list slope_point) (currentIndex : nat)
  : option alert :=
  match history with
  | [] => None
  | _ =>
    let slopes := map (fun d => number_or_zero (sp_slope d)) history in
    let recentSlopes :=
      js_slice slopes (Nat.max 0 (currentIndex - recentWindow)) (currentIndex + 1) in
    Some (alertLevel (slopeChange recentSlopes))
  end.

(** The rule in the words of the specification: the window holds the slope
    values whose index k satisfies currentIndex - 5 <= k <= currentIndex. *)
Fixpoint indexed_window (lo hi k : nat) (l : list num) : list num :=
  match l with
  | [] => []
  | x :: l' =>
    if Nat.leb lo k && Nat.leb k hi then x :: indexed_window lo hi (S k) l'
    else indexed_window lo hi (S k) l'
  end.

Definition trend_window_spec (slopes : list num) (currentIndex : nat) : list num :=
  indexed_window (currentIndex - 5) currentIndex 0 slopes.

Definition trend_change_spec (w : list num) : num :=
  match w with
  | [] | [_] => Fin 0
  | first :: _ => Num.div (Num.abs (Num.sub (last w NaN) first)) (Num.of_nat (length w))
  end.

Definition trend_alert_spec (slopes : list num) (currentIndex : nat) : alert :=
  let change := trend_change_spec (trend_window_spec slopes currentIndex) in
  if Num.lt (Fin 0.3) change then HIGH
  else if Num.lt (Fin 0.15) change then MEDIUM
  else NORMAL.

Definition six_identical : list slope_point :=
  map (fun t => mkSlopePoint (Some (Fin t)) (Some (Fin (-1.5)))) [0; 1; 2; 3; 4; 5].

Definition jump_of_two : list slope_point :=
  map (fun '(t, v) => mkSlopePoint (Some (Fin t)) (Some (Fin v)))
      [(0, -1); (1, -1); (2, -1); (3, -1); (4, 1)].

Section TrendFacts.
Local Open Scope nat_scope.

Lemma indexed_window_slice (lo hi : nat) (l : list num) : forall k,
  indexed_window lo hi k l = skipn (lo - k) (firstn (S hi - k) l)%nat.
Proof.
  induction l as [|x l IH]; intros k; cbn [indexed_window].
  - destruct (S hi - k), (lo - k); reflexivity.
  - rewrite IH. destruct (Nat.leb lo k) eqn:E1, (Nat.leb k hi) eqn:E2;
      apply Nat.leb_le in E1 || apply Nat.leb_gt in E1;
      apply Nat.leb_le in E2 || apply Nat.leb_gt in E2; cbn [andb].
    + replace (lo - k) with 0 by lia. replace (lo - S k) with 0 by lia.
      replace (S hi - k) with (S (S hi - S k)) by lia. reflexivity.
    + replace (S hi - k) with 0 by lia. replace (S hi - S k) with 0 by lia.
      destruct (lo - S k), (lo - k); reflexivity.
    + replace (lo - k) with (S (lo - S k)) by lia.
      replace (S hi - k) with (S (S hi - S k)) by lia. reflexivity.
    + replace (S hi - k) with 0 by lia. replace (S hi - S k) with 0 by lia.
      destruct (lo - S k), (lo - k); reflexivity.
Qed.

Lemma nth_last_eq (w : list num) (d : num) :
  nth (length w - 1)%nat w d = last w d.
Proof.
  induction w as [|x w IH]; [reflexivity|].
  destruct w as [|y w]; [reflexivity|].
  change (last (x :: y :: w) d) with (last (y :: w) d). rewrite <- IH.
  cbn [length]. rewrite !Nat.sub_succ, !Nat.sub_0_r. reflexivity.
Qed.

Lemma slopeChange_spec (w : list num) : slopeChange w = trend_change_spec w.
Proof.
  destruct w as [|x [|y w]]; [reflexivity|reflexivity|].
  unfold slopeChange, trend_change_spec.
  replace (Nat.ltb 1 (length (x :: y :: w))) with true
    by (symmetry; apply Nat.ltb_lt; cbn [length]; lia).
  rewrite nth_last_eq. reflexivity.
Qed.

End TrendFacts.

(** C9. For every slope history and current index, the alert of
    [AperiodicSlopeChart] is the rule of the specification applied to the
    slopes [Number(d.slope) || 0]: the window holds the at most 6 values of
    index currentIndex - 5 .. currentIndex, the change is 0 below 2 samples
    and |last - first| / count otherwise, and the level is HIGH above 0.3,
    MEDIUM above 0.15, NORMAL else (an empty history renders nothing).  Six
    identical slopes give NORMAL; a jump of 2.0 across 5 samples gives HIGH. *)
Theorem trend_alert_matches_rule (history : list slope_point) (currentIndex : nat) :
  AperiodicSlopeChart_alert history currentIndex
  = match history with
    | [] => None
    | _ => Some (trend_alert_spec (map (fun d => number_or_zero (sp_slope d)) history)
                                  currentIndex)
    end
  /\ (length (trend_window_spec (map (fun d => number_or_zero (sp_slope d)) history)
                               currentIndex) <= 6)%nat
  /\ AperiodicSlopeChart_alert six_identical 5 = Some NORMAL
  /\ Num.same (trend_change_spec (trend_window_spec
        (map (fun d => number_or_zero (sp_slope d)) six_identical) 5)) (Fin 0)
  /\ AperiodicSlopeChart_alert jump_of_two 4 = Some HIGH.
Proof.
  split; [|split; [|split; [vm_compute; reflexivity|split; vm_compute; reflexivity]]].
  - destruct history as [|h hs]; [reflexivity|].
    unfold AperiodicSlopeChart_alert, trend_alert_spec, trend_window_spec.
    rewrite indexed_window_slice, slopeChange_spec.
    replace (Nat.max 0 (currentIndex - recentWindow)) with (currentIndex - 5 - 0)%nat
      by (unfold recentWindow; lia).
    replace (currentIndex + 1)%nat with (S currentIndex - 0)%nat by lia.
    reflexivity.
  - unfold trend_window_spec. rewrite indexed_window_slice.
    rewrite length_skipn, length_firstn. lia.
Qed.

(* ================================================================== *)
(** * Further properties of the code *)

(** ** computeStrokeSeverity: theta and delta, and the zero score *)

Section SeverityMore.

Lemma clampQ_nonneg (x : Q) : 0 <= clampQ x.
Proof.
  unfold clampQ. destruct (Qle_bool 1 x) eqn:E1.
  - simpl. lra.
  - destruct (Qle_bool x 0) eqn:E2; [lra|]. apply Qle_bool_false in E2. lra.
Qed.

Lemma clampQ_zero (x : Q) : x <= 0 -> clampQ x = 0.
Proof.
  intros H. unfold clampQ. destruct (Qle_bool 1 x) eqn:E1.
  - apply Qle_bool_iff in E1. lra.
  - rewrite (proj2 (Qle_bool_iff x 0) H). reflexivity.
Qed.

Lemma clampQ_pos (x : Q) : 0 < x -> 0 < clampQ x.
Proof.
  intros H. unfold clampQ. destruct (Qle_bool 1 x) eqn:E1.
  - simpl. lra.
  - destruct (Qle_bool x 0) eqn:E2; [apply Qle_bool_iff in E2; lra|lra].
Qed.

Lemma clampQ_eq0 (x : Q) : clampQ x = 0 -> x <= 0.
Proof.
  intros H. destruct (Qlt_le_dec 0 x) as [Hx|Hx]; [|exact Hx].
  pose proof (clampQ_pos x Hx). rewrite H in H0. lra.
Qed.

Lemma Qdiv_pos_le0 (x c : Q) : 0 < c -> (x / c <= 0 <-> x <= 0).
Proof.
  intros Hc. split; intros H.
  - destruct (Qlt_le_dec 0 x) as [Hx|Hx]; [|exact Hx].
    assert (0 < x / c) by (apply Qlt_shift_div_l; lra). lra.
  - apply Qle_shift_div_r; lra.
Qed.

Lemma Qdiv_le_iff (t s c : Q) : 0 < s -> (t / s <= c <-> t <= c * s).
Proof.
  intros Hs. split; intros H.
  - assert (Hu : (t / s) * s == t).
    { rewrite Qmult_comm. apply Qmult_div_r. intro E. lra. }
    assert (Hm : (t / s) * s <= c * s) by (apply Qmult_le_compat_r; lra).
    lra.
  - apply Qle_shift_div_r; [exact Hs | exact H].
Qed.

Lemma sevQ_mono_theta_delta (a t1 t2 d1 d2 : Q) :
  t1 <= t2 -> d1 <= d2 -> sevQ a t1 d1 <= sevQ a t2 d2.
Proof.
  intros Ht Hd. unfold sevQ. cbv zeta.
  pose proof (safeQ_ge a) as Hs.
  assert (T1 : clampQ ((t1 + - 5.5) / 5.5) <= clampQ ((t2 + - 5.5) / 5.5))
    by (apply clampQ_mono, Qdiv_le_mono; lra).
  assert (D1 : clampQ ((d1 + - 3.5) / 3.5) <= clampQ ((d2 + - 3.5) / 3.5))
    by (apply clampQ_mono, Qdiv_le_mono; lra).
  assert (T2 : clampQ ((t1 / safeQ a + - 0.4) / 1.2) <= clampQ ((t2 / safeQ a + - 0.4) / 1.2)).
  { apply clampQ_mono, Qdiv_le_mono; [lra|].
    pose proof (Qdiv_le_mono t1 t2 (safeQ a) ltac:(lra) Ht). lra. }
  assert (D2 : clampQ ((d1 / safeQ a + - 0.2) / 1.0) <= clampQ ((d2 / safeQ a + - 0.2) / 1.0)).
  { apply clampQ_mono, Qdiv_le_mono; [lra|].
    pose proof (Qdiv_le_mono d1 d2 (safeQ a) ltac:(lra) Hd). lra. }
  apply clampQ_mono.
  destruct (Qle_bool t1 a) eqn:E1; destruct (Qle_bool d1 a) eqn:E2;
    destruct (Qle_bool t2 a) eqn:E3; destruct (Qle_bool d2 a) eqn:E4; simpl; try lra;
    try apply Qle_bool_iff in E3; try apply Qle_bool_iff in E4;
    try apply Qle_bool_false in E1; try apply Qle_bool_false in E2; lra.
Qed.

Lemma sevQ_zero_iff (a t d : Q) :
  sevQ a t d = 0 <-> 9 <= a /\ t <= 5.5 /\ t <= 0.4 * a /\ d <= 3.5 /\ d <= 0.2 * a.
Proof.
  unfold sevQ. cbv zeta.
  pose proof (safeQ_ge a) as Hs.
  pose proof (clampQ_nonneg ((9 + - a) / 9)) as P1.
  pose proof (clampQ_nonneg ((t + - 5.5) / 5.5)) as P2.
  pose proof (clampQ_nonneg ((d + - 3.5) / 3.5)) as P3.
  pose proof (clampQ_nonneg ((t / safeQ a + - 0.4) / 1.2)) as P4.
  pose proof (clampQ_nonneg ((d / safeQ a + - 0.2) / 1.0)) as P5.
  split.
  - intros H0. apply clampQ_eq0 in H0.
    assert (Hb : negb (Qle_bool t a) && negb (Qle_bool d a) = false).
    { destruct (negb (Qle_bool t a) && negb (Qle_bool d a)); [lra|reflexivity]. }
    rewrite Hb in H0.
    assert (Z1 : clampQ ((9 + - a) / 9) <= 0) by lra.
    assert (Z2 : clampQ ((t + - 5.5) / 5.5) <= 0) by lra.
    assert (Z3 : clampQ ((d + - 3.5) / 3.5) <= 0) by lra.
    assert (Z4 : clampQ ((t / safeQ a + - 0.4) / 1.2) <= 0) by lra.
    assert (Z5 : clampQ ((d / safeQ a + - 0.2) / 1.0) <= 0) by lra.
    assert (A1 : 9 <= a).
    { destruct (Qlt_le_dec 0 ((9 + - a) / 9)) as [Hp|Hp].
      - pose proof (clampQ_pos _ Hp). lra.
      - apply Qdiv_pos_le0 in Hp; lra. }
    assert (Hsa : safeQ a = a).
    { unfold safeQ. rewrite (proj2 (Qle_bool_iff 0.1 a) ltac:(lra)). reflexivity. }
    rewrite Hsa in Z4, Z5.
    assert (A2 : t <= 5.5).
    { destruct (Qlt_le_dec 0 ((t + - 5.5) / 5.5)) as [Hp|Hp].
      - pose proof (clampQ_pos _ Hp). lra.
      - apply Qdiv_pos_le0 in Hp; lra. }
    assert (A3 : d <= 3.5).
    { destruct (Qlt_le_dec 0 ((d + - 3.5) / 3.5)) as [Hp|Hp].
      - pose proof (clampQ_pos _ Hp). lra.
      - apply Qdiv_pos_le0 in Hp; lra. }
    assert (A4 : t <= 0.4 * a).
    { destruct (Qlt_le_dec 0 ((t / a + - 0.4) / 1.2)) as [Hp|Hp].
      - pose proof (clampQ_pos _ Hp). lra.
      - apply Qdiv_pos_le0 in Hp; [|lra].
        apply (Qdiv_le_iff t a 0.4); lra. }
    assert (A5 : d <= 0.2 * a).
    { destruct (Qlt_le_dec 0 ((d / a + - 0.2) / 1.0)) as [Hp|Hp].
      - pose proof (clampQ_pos _ Hp). lra.
      - apply Qdiv_pos_le0 in Hp; [|lra].
        apply (Qdiv_le_iff d a 0.2); lra. }
    repeat split; assumption.
  - intros (A1 & A2 & A4 & A3 & A5).
    assert (Hsa : safeQ a = a).
    { unfold safeQ. rewrite (proj2 (Qle_bool_iff 0.1 a) ltac:(lra)). reflexivity. }
    rewrite Hsa.
    rewrite (clampQ_zero ((9 + - a) / 9)) by (apply Qdiv_pos_le0; lra).
    rewrite (clampQ_zero ((t + - 5.5) / 5.5)) by (apply Qdiv_pos_le0; lra).
    rewrite (clampQ_zero ((d + - 3.5) / 3.5)) by (apply Qdiv_pos_le0; lra).
    rewrite (clampQ_zero ((t / a + - 0.4) / 1.2))
      by (apply Qdiv_pos_le0; [lra|]; assert (t / a <= 0.4) by (apply Qdiv_le_iff; lra); lra).
    rewrite (clampQ_zero ((d / a + - 0.2) / 1.0))
      by (apply Qdiv_pos_le0; [lra|]; assert (d / a <= 0.2) by (apply Qdiv_le_iff; lra); lra).
    rewrite (proj2 (Qle_bool_iff t a) ltac:(lra)). simpl.
    apply clampQ_zero. lra.
Qed.

End SeverityMore.

(** X1. With alpha fixed, raising theta or delta never lowers the stroke
    severity (finite band powers). *)
Theorem computeStrokeSeverity_theta_delta_monotone (a t1 t2 d1 d2 : Q) :
  t1 <= t2 -> d1 <= d2 ->
  Num.le (computeStrokeSeverity (mkBands (Some (Fin a)) (Some (Fin t1)) (Some (Fin d1))))
         (computeStrokeSeverity (mkBands (Some (Fin a)) (Some (Fin t2)) (Some (Fin d2))))
  = true.
Proof.
  intros Ht Hd. rewrite !computeStrokeSeverity_fin. simpl. apply Qle_bool_iff.
  apply sevQ_mono_theta_delta.
  - rewrite !nzQ_eq. exact Ht.
  - rewrite !nzQ_eq. exact Hd.
Qed.

(** X2. On finite band powers the severity is exactly 0 if and only if
    alpha >= 9, theta <= min(5.5, 0.4 alpha) and delta <= min(3.5, 0.2 alpha). *)
Theorem computeStrokeSeverity_zero_iff (a t d : Q) :
  computeStrokeSeverity (mkBands (Some (Fin a)) (Some (Fin t)) (Some (Fin d))) = Fin 0
  <-> 9 <= a /\ t <= 5.5 /\ t <= 0.4 * a /\ d <= 3.5 /\ d <= 0.2 * a.
Proof.
  rewrite computeStrokeSeverity_fin.
  pose proof (nzQ_eq a) as Ea. pose proof (nzQ_eq t) as Et. pose proof (nzQ_eq d) as Ed.
  split.
  - intros H. injection H as H. apply sevQ_zero_iff in H. lra.
  - intros H. f_equal. apply sevQ_zero_iff. lra.
Qed.

Lemma computeStrokeSeverity_theta_delta_monotone_witness :
  Num.le (computeStrokeSeverity (mkBands (Some (Fin 8)) (Some (Fin 4)) (Some (Fin 2))))
         (computeStrokeSeverity (mkBands (Some (Fin 8)) (Some (Fin 6)) (Some (Fin 3))))
  = true.
Proof. apply computeStrokeSeverity_theta_delta_monotone; lra. Defined.

(* ------------------------------------------------------------------ *)
(** ** RatioGauge: needle angle and value colour *)

Definition green : string := "#2E7D32".
Definition yellow : string := "#FBC02D".
Definition red : string := "#D32F2F".

(** [const denom = (max - min) || 1;] *)
Definition gauge_denom (min max : num) : num :=
  let d := (max - min)%js in if Num.truthy d then d else Fin 1.

(** [const raw01 = clamp((valueNum - min) / denom, 0, 1);] with
    [valueNum = Number(value)], the identity on a number *)
Definition gauge_raw01 (value min max : num) : num :=
  clamp ((value - min) / gauge_denom min max)%js (Fin 0) (Fin 1).

(** 3-colour gauge of part_000 (both Apps): returns [needleA] and
    [bucketColor] *)
Definition ratioGauge3 (value min max : num) (invertNeedle : bool) : num * string :=
  let raw01 := gauge_raw01 value min max in
  let pos01 := if invertNeedle then (Fin 1 - raw01)%js else raw01 in
  let needleA := (Fin 180 - pos01 * Fin 180)%js in
  let bucketColor :=
    if (pos01 < Fin 1 / Fin 3)%js then green
    else if (pos01 < Fin 2 / Fin 3)%js then yellow
    else red in
  (needleA, bucketColor).

(** colour of the arc under an angle: red 0-60, yellow 60-120, green 120-180
    ([arcPathTop(0, 60)], [arcPathTop(60, 120)], [arcPathTop(120, 180)]) *)
Definition arc3_color (a : Q) : string :=
  if Qle_bool a 60 then red else if Qle_bool a 120 then yellow else green.

(** red/green gauge of the first App of arrow_no_yellow.js; [pow055] is
    [x => Math.pow(x, 0.55)] *)
Definition ratioGauge2 (pow055 : num -> num) (value min max : num) (invertNeedle : bool)
  : num * string :=
  let raw01 := gauge_raw01 value min max in
  let base01 := if invertNeedle then (Fin 1 - raw01)%js else raw01 in
  let pos01 := clamp (pow055 base01) (Fin 0) (Fin 1) in
  let needleA := (Fin 180 - pos01 * Fin 180)%js in
  let bucketColor := if Num.le pos01 (Fin 0.5) then green else red in
  (needleA, bucketColor).

Section GaugeFacts.

Lemma gauge_denom_fin (min max : Q) :
  exists d, gauge_denom (Fin min) (Fin max) = Fin d /\ ~ d == 0
    /\ (min < max -> d == max - min).
Proof.
  unfold gauge_denom. cbn [Num.sub Num.neg Num.add Num.truthy].
  destruct (Qeq_bool (max + - min) 0) eqn:E; simpl.
  - exists 1. split; [reflexivity|]. split; [intro H; discriminate|].
    intros H. apply Qeq_bool_iff in E. lra.
  - exists (max + - min). split; [reflexivity|]. split.
    + intro H. apply Qeq_bool_iff in H. congruence.
    + intros _. lra.
Qed.

Lemma gauge_raw01_fin (v min max : Q) :
  exists r, gauge_raw01 (Fin v) (Fin min) (Fin max) = Fin r /\ 0 <= r /\ r <= 1.
Proof.
  unfold gauge_raw01. destruct (gauge_denom_fin min max) as (d & Hd & Hnz & _).
  rewrite Hd. cbn [Num.sub Num.neg Num.add].
  rewrite div_fin_nz by exact Hnz. rewrite clamp_fin.
  exists (clampQ ((v + - min) / d)). split; [reflexivity|].
  split; [apply clampQ_nonneg|].
  unfold clampQ. destruct (Qle_bool 1 ((v + - min) / d)) eqn:E1; simpl.
  - lra.
  - destruct (Qle_bool ((v + - min) / d) 0) eqn:E2; [lra|].
    apply Qle_bool_false in E1. lra.
Qed.

Lemma gauge_pos_fin (r : Q) (inv : bool) :
  0 <= r -> r <= 1 ->
  exists p, (if inv then (Fin 1 - Fin r)%js else Fin r) = Fin p /\ 0 <= p /\ p <= 1.
Proof.
  intros H0 H1. destruct inv.
  - exists (1 + - r). split; [reflexivity|]. split; lra.
  - exists r. split; [reflexivity|]. split; lra.
Qed.

Lemma Qlt_bool_third (p : Q) :
  Num.lt (Fin p) (Fin 1 / Fin 3)%js = negb (Qle_bool (1 / 3) p).
Proof. reflexivity. Qed.

Lemma ratioGauge3_fin (p : Q) :
  0 <= p -> p <= 1 ->
  let needle := (Fin 180 - Fin p * Fin 180)%js in
  let color := if (Fin p < Fin 1 / Fin 3)%js then green
               else if (Fin p < Fin 2 / Fin 3)%js then yellow else red in
  exists a, needle = Fin a /\ 0 <= a /\ a <= 180 /\ color = arc3_color a.
Proof.
  intros H0 H1. cbv zeta. cbn [Num.sub Num.neg Num.add Num.mul].
  exists (180 + - (p * 180)). split; [reflexivity|]. split; [lra|]. split; [lra|].
  unfold arc3_color.
  change (Num.lt (Fin p) (Fin 1 / Fin 3)%js) with (negb (Qle_bool (1 / 3) p)).
  change (Num.lt (Fin p) (Fin 2 / Fin 3)%js) with (negb (Qle_bool (2 / 3) p)).
  assert (E13 : (1 / 3 : Q) == 1 # 3) by reflexivity.
  assert (E23 : (2 / 3 : Q) == 2 # 3) by reflexivity.
  destruct (Qle_bool (1 / 3) p) eqn:A; destruct (Qle_bool (2 / 3) p) eqn:B;
    destruct (Qle_bool (180 + - (p * 180)) 60) eqn:C;
    destruct (Qle_bool (180 + - (p * 180)) 120) eqn:D; simpl; try reflexivity;
    try apply Qle_bool_iff in A; try apply Qle_bool_iff in B;
    try apply Qle_bool_iff in C; try apply Qle_bool_iff in D;
    try apply Qle_bool_false in A; try apply Qle_bool_false in B;
    try apply Qle_bool_false in C; try apply Qle_bool_false in D; exfalso;
    rewrite ?E13, ?E23 in *; lra.
Qed.

Lemma ratioGauge3_fin_inputs (v min max : Q) (inv : bool) :
  exists a, fst (ratioGauge3 (Fin v) (Fin min) (Fin max) inv) = Fin a
    /\ 0 <= a /\ a <= 180
    /\ snd (ratioGauge3 (Fin v) (Fin min) (Fin max) inv) = arc3_color a.
Proof.
  destruct (gauge_raw01_fin v min max) as (r & Hr & H0 & H1).
  destruct (gauge_pos_fin r inv H0 H1) as (p & Hp & P0 & P1).
  unfold ratioGauge3. rewrite Hr, Hp. cbn [fst snd].
  exact (ratioGauge3_fin p P0 P1).
Qed.

End GaugeFacts.

(** X3. In the 3-colour gauge of part_000, for a finite value and a finite
    range the needle angle is a number in [0, 180] and the value is drawn in
    the colour of the arc the needle points at (red up to 60 degrees, yellow
    up to 120, green beyond). *)
Theorem ratioGauge3_needle_matches_color (v min max : Q) (invertNeedle : bool) :
  exists a, fst (ratioGauge3 (Fin v) (Fin min) (Fin max) invertNeedle) = Fin a
    /\ 0 <= a /\ a <= 180
    /\ snd (ratioGauge3 (Fin v) (Fin min) (Fin max) invertNeedle) = arc3_color a.
Proof. apply ratioGauge3_fin_inputs. Qed.

Section GaugeOrder.

Lemma clampQ_one (x : Q) : 1 <= x -> clampQ x = 1.
Proof.
  intros H. unfold clampQ. rewrite (proj2 (Qle_bool_iff 1 x) H). reflexivity.
Qed.

Lemma gauge_raw01_span (v min max : Q) :
  min < max ->
  gauge_raw01 (Fin v) (Fin min) (Fin max) = Fin (clampQ ((v + - min) / (max + - min))).
Proof.
  intros H. unfold gauge_raw01, gauge_denom. cbn [Num.sub Num.neg Num.add Num.truthy].
  destruct (Qeq_bool (max + - min) 0) eqn:E.
  - apply Qeq_bool_iff in E. lra.
  - cbn [negb]. rewrite div_fin_nz by (intro H'; lra). apply clamp_fin.
Qed.

Lemma ratioGauge3_needle (v min max : Q) (inv : bool) :
  min < max ->
  fst (ratioGauge3 (Fin v) (Fin min) (Fin max) inv)
  = Fin (180 + - ((if inv then 1 + - clampQ ((v + - min) / (max + - min))
                   else clampQ ((v + - min) / (max + - min))) * 180)).
Proof.
  intros H. unfold ratioGauge3. rewrite gauge_raw01_span by exact H.
  destruct inv; reflexivity.
Qed.

End GaugeOrder.

(** X4. In the 3-colour gauge of part_000, with a finite range min < max,
    the needle moves monotonically: a larger value never moves a normal
    needle (TAR) toward the green end (180 degrees) and never moves an
    inverted needle (ADR) toward the red end (0 degrees); a value at or
    below min puts a normal needle at 180 and an inverted one at 0, a value
    at or above max the other way round. *)
Theorem ratioGauge3_needle_monotone (min max v1 v2 : Q) :
  min < max ->
  (v1 <= v2 ->
     Num.le (fst (ratioGauge3 (Fin v2) (Fin min) (Fin max) false))
            (fst (ratioGauge3 (Fin v1) (Fin min) (Fin max) false)) = true
     /\ Num.le (fst (ratioGauge3 (Fin v1) (Fin min) (Fin max) true))
               (fst (ratioGauge3 (Fin v2) (Fin min) (Fin max) true)) = true)
  /\ (v1 <= min ->
        Num.same (fst (ratioGauge3 (Fin v1) (Fin min) (Fin max) false)) (Fin 180)
        /\ Num.same (fst (ratioGauge3 (Fin v1) (Fin min) (Fin max) true)) (Fin 0))
  /\ (max <= v2 ->
        Num.same (fst (ratioGauge3 (Fin v2) (Fin min) (Fin max) false)) (Fin 0)
        /\ Num.same (fst (ratioGauge3 (Fin v2) (Fin min) (Fin max) true)) (Fin 180)).
Proof.
  intros H. rewrite !ratioGauge3_needle by exact H.
  assert (Hd : 0 < max + - min) by lra.
  split; [|split].
  - intros Hv.
    assert (M : clampQ ((v1 + - min) / (max + - min)) <= clampQ ((v2 + - min) / (max + - min)))
      by (apply clampQ_mono, Qdiv_le_mono; lra).
    simpl. split; apply Qle_bool_iff; lra.
  - intros Hv.
    rewrite (clampQ_zero ((v1 + - min) / (max + - min))) by (apply Qdiv_pos_le0; lra).
    simpl. split; lra.
  - intros Hv.
    rewrite (clampQ_one ((v2 + - min) / (max + - min)))
      by (apply Qle_shift_div_l; lra).
    simpl. split; lra.
Qed.

Lemma ratioGauge3_needle_monotone_witness :
  Num.le (fst (ratioGauge3 (Fin (1 # 2)) (Fin 0) (Fin 1) false))
         (fst (ratioGauge3 (Fin (1 # 4)) (Fin 0) (Fin 1) false)) = true.
Proof.
  exact (proj1 (proj1 (ratioGauge3_needle_monotone 0 1 (1 # 4) (1 # 2) ltac:(lra))
                  ltac:(lra))).
Defined.

Section GaugeTwo.

Lemma clamp01_cases (x : num) :
  clamp x (Fin 0) (Fin 1) = NaN \/ exists q, clamp x (Fin 0) (Fin 1) = Fin q /\ 0 <= q /\ q <= 1.
Proof.
  destruct x as [q| | |].
  - right. rewrite clamp_fin. exists (clampQ q). split; [reflexivity|].
    split; [apply clampQ_nonneg|]. unfold clampQ.
    destruct (Qle_bool 1 q) eqn:E1; simpl; [lra|].
    destruct (Qle_bool q 0) eqn:E2; [lra|]. apply Qle_bool_false in E1. lra.
  - right. exists 1. split; [reflexivity|]. lra.
  - right. exists 0. split; [reflexivity|]. lra.
  - left. reflexivity.
Qed.

End GaugeTwo.

(** X5. In the red/green gauge of the first App of arrow_no_yellow.js,
    whatever [Math.pow(base01, 0.55)] returns, the value is shown green
    exactly when the needle angle is a number of at least 90 degrees, i.e.
    points into the green arc [arcPathTop(90, 180)]; the needle angle is a
    number in [0, 180] or NaN. *)
Theorem ratioGauge2_needle_matches_color (pow055 : num -> num) (value min max : num)
  (invertNeedle : bool) :
  let g := ratioGauge2 pow055 value min max invertNeedle in
  (snd g = green <-> exists a, fst g = Fin a /\ 90 <= a)
  /\ (fst g = NaN \/ exists a, fst g = Fin a /\ 0 <= a /\ a <= 180).
Proof.
  cbv zeta. unfold ratioGauge2. cbv zeta. cbn [fst snd].
  destruct (clamp01_cases (pow055 (if invertNeedle then (Fin 1 - gauge_raw01 value min max)%js
                                   else gauge_raw01 value min max))) as [Hn | (q & Hq & H0 & H1)].
  - rewrite Hn. cbn. split; [|left; reflexivity].
    split; [intro H; discriminate | intros (a & Ha & _); discriminate].
  - rewrite Hq. cbn [Num.mul Num.sub Num.neg Num.add Num.le].
    split; [|right; exists (180 + - (q * 180)); split; [reflexivity|split; lra]].
    destruct (Qle_bool q 0.5) eqn:E.
    + apply Qle_bool_iff in E. split; [|reflexivity].
      intros _. exists (180 + - (q * 180)). split; [reflexivity|lra].
    + apply Qle_bool_false in E. split; [intro H; discriminate|].
      intros (a & Ha & Ha'). injection Ha as <-. lra.
Qed.

(** X6. A gauge value that is NaN leaves the needle angle NaN and is shown
    red, in the 3-colour gauge of part_000 and, since [Math.pow(NaN, 0.55)]
    is NaN, in the red/green gauge of arrow_no_yellow.js. *)
Theorem ratioGauge_nan_value (pow055 : num -> num) (min max : num) (invertNeedle : bool) :
  ratioGauge3 NaN min max invertNeedle = (NaN, red)
  /\ (pow055 NaN = NaN -> ratioGauge2 pow055 NaN min max invertNeedle = (NaN, red)).
Proof.
  assert (Hr : gauge_raw01 NaN min max = NaN) by reflexivity.
  split.
  - unfold ratioGauge3. rewrite Hr. destruct invertNeedle; reflexivity.
  - intros Hp. unfold ratioGauge2. rewrite Hr.
    destruct invertNeedle; cbn [Num.sub Num.neg Num.add]; rewrite Hp; reflexivity.
Qed.

Lemma ratioGauge_nan_value_witness :
  ratioGauge2 (fun x => x) NaN (Fin 0) (Fin 1) true = (NaN, red).
Proof. exact (proj2 (ratioGauge_nan_value (fun x => x) (Fin 0) (Fin 1) true) eq_refl). Defined.

(* ------------------------------------------------------------------ *)
(** ** The gauges as the Apps feed them *)

(** [const ADR = alpha / Math.max(delta, 0.1);] at render time, from the
    interpolated band powers *)
Definition render_ADR (s : playback) : num :=
  let alpha := sample_field tr_alpha (current s) (i s) (tRef s) in
  let delta := sample_field tr_delta (current s) (i s) (tRef s) in
  (alpha / Num.max delta (Fin 0.1))%js.

(** [const TAR = theta / Math.max(alpha, 0.1);] *)
Definition render_TAR (s : playback) : num :=
  let alpha := sample_field tr_alpha (current s) (i s) (tRef s) in
  let theta := sample_field tr_theta (current s) (i s) (tRef s) in
  (theta / Num.max alpha (Fin 0.1))%js.

Section AppGauges.

Lemma safe_fin (x : num) : exists q, safe x = Fin q.
Proof. unfold safe. destruct x as [q| | |]; simpl; eauto. Qed.

Lemma sample_field_fin (f : trial -> num) (c : list trial) (k : nat) (tt : Q) :
  exists q, sample_field f c k tt = Fin q.
Proof. apply safe_fin. Qed.

Lemma ratio_render_fin (x y : num) :
  (exists a, x = Fin a) -> (exists b, y = Fin b) ->
  exists q, (x / Num.max y (Fin 0.1))%js = Fin q.
Proof.
  intros (a & ->) (b & ->). rewrite safeAlpha_fin_eq.
  pose proof (safeQ_ge b). rewrite div_fin_nz by (intro H'; lra). eauto.
Qed.

Lemma render_ADR_fin (s : playback) : exists q, render_ADR s = Fin q.
Proof. apply ratio_render_fin; apply sample_field_fin. Qed.

Lemma render_TAR_fin (s : playback) : exists q, render_TAR s = Fin q.
Proof. apply ratio_render_fin; apply sample_field_fin. Qed.

Lemma fold_min_pinf (l : list num) :
  Forall (fun x => Num.isFinite x = true) l ->
  (l = [] /\ fold_left Num.min l PInf = PInf)
  \/ exists m, fold_left Num.min l PInf = Fin m /\ Forall (fun x => Num.le (Fin m) x = true) l.
Proof.
  intros Hl. destruct l as [|x l]; [left; split; reflexivity|right].
  inversion Hl as [|? ? Hx Hl']; subst.
  destruct x as [b| | |]; try discriminate. cbn [fold_left].
  change (Num.min PInf (Fin b)) with (Fin b).
  destruct (fold_min_fin l b Hl') as (m & Hm & Hmb & Hall).
  exists m. split; [exact Hm|]. constructor; [simpl; apply Qle_bool_iff; exact Hmb|exact Hall].
Qed.

Lemma fold_max_ninf (l : list num) :
  Forall (fun x => Num.isFinite x = true) l ->
  (l = [] /\ fold_left Num.max l NInf = NInf)
  \/ exists m, fold_left Num.max l NInf = Fin m /\ Forall (fun x => Num.le x (Fin m) = true) l.
Proof.
  intros Hl. destruct l as [|x l]; [left; split; reflexivity|right].
  inversion Hl as [|? ? Hx Hl']; subst.
  destruct x as [b| | |]; try discriminate. cbn [fold_left].
  change (Num.max NInf (Fin b)) with (Fin b).
  destruct (fold_max_fin l b Hl') as (m & Hm & Hbm & Hall).
  exists m. split; [exact Hm|]. constructor; [simpl; apply Qle_bool_iff; exact Hbm|exact Hall].
Qed.

Lemma min_of_with (vals : list num) (c : Q) :
  Forall (fun x => Num.isFinite x = true) vals ->
  exists m, min_of (vals ++ [Fin c]) = Fin m /\ m <= c
    /\ Forall (fun x => Num.le (Fin m) x = true) vals.
Proof.
  intros Hv. unfold min_of. rewrite fold_left_app. cbn [fold_left].
  destruct (fold_min_pinf vals Hv) as [[-> Hp] | (m & Hm & Hall)].
  - rewrite Hp. exists c. split; [reflexivity|]. split; [lra|constructor].
  - rewrite Hm. rewrite min_fin. destruct (Qle_bool m c) eqn:E.
    + exists m. apply Qle_bool_iff in E. split; [reflexivity|]. split; assumption.
    + exists c. apply Qle_bool_false in E. split; [reflexivity|]. split; [lra|].
      eapply Forall_impl; [|exact Hall]. intros x Hx.
      eapply le_trans; [|exact Hx]. simpl. apply Qle_bool_iff. lra.
Qed.

Lemma max_of_with (vals : list num) (c : Q) :
  Forall (fun x => Num.isFinite x = true) vals ->
  exists m, max_of (vals ++ [Fin c]) = Fin m /\ c <= m
    /\ Forall (fun x => Num.le x (Fin m) = true) vals.
Proof.
  intros Hv. unfold max_of. rewrite fold_left_app. cbn [fold_left].
  destruct (fold_max_ninf vals Hv) as [[-> Hp] | (m & Hm & Hall)].
  - rewrite Hp. exists c. split; [reflexivity|]. split; [lra|constructor].
  - rewrite Hm. rewrite max_fin. destruct (Qle_bool c m) eqn:E.
    + exists m. apply Qle_bool_iff in E. split; [reflexivity|]. split; assumption.
    + exists c. apply Qle_bool_false in E. split; [reflexivity|]. split; [lra|].
      eapply Forall_impl; [|exact Hall]. intros x Hx.
      eapply le_trans; [exact Hx|]. simpl. apply Qle_bool_iff. lra.
Qed.

Lemma dataset_range_bounds (all_rows : list trial) (key : trial -> num) (s : playback) :
  exists lo hi, gauge_range_dataset all_rows key s = (Fin lo, Fin hi)
    /\ lo <= 0 /\ 1 <= hi
    /\ (forall r q, In r all_rows -> key r = Fin q -> lo <= q /\ q <= hi).
Proof.
  unfold gauge_range_dataset.
  assert (Hfin : Forall (fun x => Num.isFinite x = true) (filter Num.isFinite (map key all_rows))).
  { apply Forall_forall. intros x Hx. apply filter_In in Hx. apply Hx. }
  destruct (min_of_with _ 0 Hfin) as (lo & Hlo & Hlo0 & Hloall).
  destruct (max_of_with _ 1 Hfin) as (hi & Hhi & Hhi1 & Hhiall).
  rewrite Hlo, Hhi. exists lo, hi. split; [reflexivity|]. split; [exact Hlo0|]. split; [exact Hhi1|].
  intros r q Hr Hk.
  assert (Hin : In (Fin q) (filter Num.isFinite (map key all_rows))).
  { apply filter_In. split; [|reflexivity]. rewrite <- Hk. apply in_map, Hr. }
  rewrite Forall_forall in Hloall, Hhiall.
  specialize (Hloall _ Hin). specialize (Hhiall _ Hin). simpl in Hloall, Hhiall.
  apply Qle_bool_iff in Hloall, Hhiall. split; assumption.
Qed.

End AppGauges.

(** X7. In the Apps of part_000, every gauge range [Math.min(...vals, 0)],
    [Math.max(...vals, 1)] is a pair of numbers lo <= 0 < 1 <= hi enclosing
    every finite value of the dataset; and in every playback state the ADR
    gauge (inverted) and the TAR gauge get a finite value, so each needle
    angle is a number in [0, 180] drawn in the colour of its arc. *)
Theorem part000_gauges_well_defined (all_rows : list trial) (s : playback) :
  (forall key : trial -> num,
     exists lo hi, gauge_range_dataset all_rows key s = (Fin lo, Fin hi)
       /\ lo <= 0 /\ 1 <= hi
       /\ (forall r q, In r all_rows -> key r = Fin q -> lo <= q /\ q <= hi))
  /\ (exists a, fst (ratioGauge3 (render_ADR s) (fst (gauge_range_dataset all_rows ADR s))
                                 (snd (gauge_range_dataset all_rows ADR s)) true) = Fin a
        /\ 0 <= a /\ a <= 180
        /\ snd (ratioGauge3 (render_ADR s) (fst (gauge_range_dataset all_rows ADR s))
                            (snd (gauge_range_dataset all_rows ADR s)) true) = arc3_color a)
  /\ (exists a, fst (ratioGauge3 (render_TAR s) (fst (gauge_range_dataset all_rows TAR s))
                                 (snd (gauge_range_dataset all_rows TAR s)) false) = Fin a
        /\ 0 <= a /\ a <= 180
        /\ snd (ratioGauge3 (render_TAR s) (fst (gauge_range_dataset all_rows TAR s))
                            (snd (gauge_range_dataset all_rows TAR s)) false) = arc3_color a).
Proof.
  split; [|split].
  - intros key. apply dataset_range_bounds.
  - destruct (dataset_range_bounds all_rows ADR s) as (lo & hi & Hr & _).
    destruct (render_ADR_fin s) as (v & Hv). rewrite Hr, Hv. cbn [fst snd].
    apply ratioGauge3_fin_inputs.
  - destruct (dataset_range_bounds all_rows TAR s) as (lo & hi & Hr & _).
    destruct (render_TAR_fin s) as (v & Hv). rewrite Hr, Hv. cbn [fst snd].
    apply ratioGauge3_fin_inputs.
Qed.

(** X8. In the first App of arrow_no_yellow.js, in every playback state,
    both gauges get a finite value and a finite range from [subjectMinMax],
    so [Math.pow] is only applied to a number in [0, 1]; as long as it
    returns a number there, each needle angle is a number in [0, 180]. *)
Theorem first_app_gauges_well_defined (pow055 : num -> num) (s : playback) :
  (forall q, 0 <= q -> q <= 1 -> pow055 (Fin q) <> NaN) ->
  (exists a, fst (ratioGauge2 pow055 (render_ADR s) (fst (gauge_range s ADR))
                              (snd (gauge_range s ADR)) true) = Fin a /\ 0 <= a /\ a <= 180)
  /\ (exists a, fst (ratioGauge2 pow055 (render_TAR s) (fst (gauge_range s TAR))
                                 (snd (gauge_range s TAR)) false) = Fin a /\ 0 <= a /\ a <= 180).
Proof.
  intros Hpow.
  assert (G : forall v key inv, (exists q, v = Fin q) ->
            exists a, fst (ratioGauge2 pow055 v (fst (gauge_range s key))
                                       (snd (gauge_range s key)) inv) = Fin a
                      /\ 0 <= a /\ a <= 180).
  { intros v key inv (q & ->).
    destruct (subjectMinMax_bounds (current s) key) as (lo & hi & Hr & _ & _).
    unfold gauge_range. rewrite Hr. cbn [fst snd].
    destruct (gauge_raw01_fin q lo hi) as (r & Hraw & H0 & H1).
    destruct (gauge_pos_fin r inv H0 H1) as (p & Hp & P0 & P1).
    unfold ratioGauge2. rewrite Hraw, Hp. cbv zeta. cbn [fst].
    destruct (clamp01_cases (pow055 (Fin p))) as [Hn | (c & Hc & C0 & C1)].
    - exfalso. apply (Hpow p P0 P1).
      destruct (pow055 (Fin p)) as [c| | |];
        [rewrite clamp_fin in Hn; discriminate | cbv in Hn; discriminate
        | cbv in Hn; discriminate | reflexivity].
    - rewrite Hc. exists (180 + - (c * 180)). split; [reflexivity|]. split; lra. }
  split; apply G; [apply render_ADR_fin | apply render_TAR_fin].
Qed.

Lemma first_app_gauges_well_defined_witness :
  exists a, fst (ratioGauge2 (fun x => x) (render_ADR (loaded demo_dataset))
                  (fst (gauge_range (loaded demo_dataset) ADR))
                  (snd (gauge_range (loaded demo_dataset) ADR)) true) = Fin a
            /\ 0 <= a /\ a <= 180.
Proof.
  apply (proj1 (first_app_gauges_well_defined (fun x => x) (loaded demo_dataset)
                  (fun q _ _ => fin_not_nan q))).
Defined.

(* ------------------------------------------------------------------ *)
(** ** CircularEEGChart: rings, lit segments and their colours *)

(** The geometry constants are finite numbers; they are rationals here. *)
Definition innerR : Q := 28.
Definition outerR (size : Q) : Q := size / 2 - 14.
Definition segGap : Q := 3.

(** [const ringTh = (outerR - innerR) / (segments + 0.25);] *)
Definition ringTh (size : Q) (segments : nat) : Q :=
  (outerR size - innerR) / (inject_Z (Z.of_nat segments) + 0.25).

(** [const r0 = innerR + si * ringTh + si * (segGap / 2);] *)
Definition ring_r0 (size : Q) (segments si : nat) : Q :=
  innerR + inject_Z (Z.of_nat si) * ringTh size segments
  + inject_Z (Z.of_nat si) * (segGap / 2).

(** [const r1 = r0 + ringTh - segGap / 2;] *)
Definition ring_r1 (size : Q) (segments si : nat) : Q :=
  ring_r0 size segments si + ringTh size segments - segGap / 2.

(** [Math.round]: the nearest integer, halves rounded up *)
Definition js_round (x : num) : num :=
  match x with
  | Fin q => Fin (inject_Z (Qfloor (q + (1 # 2))))
  | _ => x
  end.

(** [const severity01 = clamp(Math.pow(severityRaw, 0.7) * 1.1, 0, 1);]
    with [pow07] standing for [x => Math.pow(x, 0.7)] *)
Definition severity01 (pow07 : num -> num) (values : bands) : num :=
  clamp (pow07 (computeStrokeSeverity values) * Fin 1.1)%js (Fin 0) (Fin 1).

(** [const activeRings = Math.round(severity01 * segments);] *)
Definition activeRings (pow07 : num -> num) (values : bands) (segments : nat) : num :=
  js_round (severity01 pow07 values * Num.of_nat segments)%js.

(** [const filled = si < activeRings;] *)
Definition segment_filled (pow07 : num -> num) (values : bands) (segments si : nat) : bool :=
  (Num.of_nat si < activeRings pow07 values segments)%js.

Definition radialColor (frac : num) : string :=
  if (frac < Fin 1 / Fin 3)%js then green
  else if (frac < Fin 2 / Fin 3)%js then yellow
  else red.

(** [const frac = (si + 0.5) / segments; const segColor = radialColor(frac);] *)
Definition segment_color (segments si : nat) : string :=
  radialColor ((Num.of_nat si + Fin 0.5) / Num.of_nat segments)%js.

Definition color_rank (c : string) : nat :=
  if String.eqb c green then 0 else if String.eqb c yellow then 1 else 2.

Section RingFacts.

Lemma ringTh_6 (size : Q) : ringTh size 6 == (size - 84) * (2 # 25).
Proof. unfold ringTh, outerR, innerR. simpl. field. Qed.

Lemma outerR_eq (size : Q) : outerR size == size * (1 # 2) - 14.
Proof. unfold outerR. field. Qed.

Lemma ring_r0_eq (size : Q) (n si : nat) :
  ring_r0 size n si == 28 + inject_Z (Z.of_nat si) * (ringTh size n + (3 # 2)).
Proof. unfold ring_r0, innerR, segGap. field. Qed.

Lemma ring_r1_eq (size : Q) (n si : nat) :
  ring_r1 size n si == 28 + inject_Z (Z.of_nat si) * (ringTh size n + (3 # 2))
                        + ringTh size n - (3 # 2).
Proof. unfold ring_r1. rewrite ring_r0_eq. unfold segGap. field. Qed.

Lemma inject_Z_S (k : nat) : inject_Z (Z.of_nat (S k)) == inject_Z (Z.of_nat k) + 1.
Proof.
  replace (Z.of_nat (S k)) with (Z.of_nat k + 1)%Z by lia.
  rewrite inject_Z_plus. reflexivity.
Qed.

Lemma Qfloor_bounds (x : Q) : inject_Z (Qfloor x) <= x /\ x < inject_Z (Qfloor x) + 1.
Proof.
  split; [apply Qfloor_le|].
  pose proof (Qlt_floor x) as H. rewrite inject_Z_plus in H. exact H.
Qed.

Lemma of_nat_lt_Z (si : nat) (z : Z) :
  Num.lt (Num.of_nat si) (Fin (inject_Z z)) = Nat.ltb si (Z.to_nat z).
Proof.
  unfold Num.of_nat, Num.lt. destruct (Qle_bool (inject_Z z) (inject_Z (Z.of_nat si))) eqn:E.
  - apply Qle_bool_iff in E. rewrite <- Zle_Qle in E. symmetry. apply Nat.ltb_ge. lia.
  - apply Qle_bool_false in E. rewrite <- Zlt_Qlt in E. symmetry. apply Nat.ltb_lt. lia.
Qed.

Lemma radial_rank_mono (x y : Q) :
  x <= y -> (color_rank (radialColor (Fin x)) <= color_rank (radialColor (Fin y)))%nat.
Proof.
  intros H. unfold radialColor.
  change (Num.lt (Fin x) (Fin 1 / Fin 3)%js) with (negb (Qle_bool (1 / 3) x)).
  change (Num.lt (Fin x) (Fin 2 / Fin 3)%js) with (negb (Qle_bool (2 / 3) x)).
  change (Num.lt (Fin y) (Fin 1 / Fin 3)%js) with (negb (Qle_bool (1 / 3) y)).
  change (Num.lt (Fin y) (Fin 2 / Fin 3)%js) with (negb (Qle_bool (2 / 3) y)).
  assert (E13 : (1 / 3 : Q) == 1 # 3) by reflexivity.
  assert (E23 : (2 / 3 : Q) == 2 # 3) by reflexivity.
  destruct (Qle_bool (1 / 3) x) eqn:A; destruct (Qle_bool (2 / 3) x) eqn:B;
    destruct (Qle_bool (1 / 3) y) eqn:C; destruct (Qle_bool (2 / 3) y) eqn:D;
    cbn; try lia;
    try apply Qle_bool_iff in A; try apply Qle_bool_iff in B;
    try apply Qle_bool_iff in C; try apply Qle_bool_iff in D;
    try apply Qle_bool_false in A; try apply Qle_bool_false in B;
    try apply Qle_bool_false in C; try apply Qle_bool_false in D; exfalso;
    rewrite ?E13, ?E23 in *; lra.
Qed.

End RingFacts.

(** X9. With the 6 segments the App draws, the outermost ring ends inside
    the outer circle (r1 <= outerR) exactly when size >= 384; then every
    ring lies between innerR and outerR with r0 < r1; and for any size
    consecutive rings are separated by exactly segGap = 3. *)
Theorem circular_rings_fit (size : Q) :
  (ring_r1 size 6 5 <= outerR size <-> 384 <= size)
  /\ (384 <= size -> forall si, (si < 6)%nat ->
        innerR <= ring_r0 size 6 si /\ ring_r0 size 6 si < ring_r1 size 6 si
        /\ ring_r1 size 6 si <= outerR size)
  /\ (forall n si, ring_r0 size n (S si) - ring_r1 size n si == segGap).
Proof.
  split; [|split].
  - rewrite ring_r1_eq, outerR_eq, ringTh_6.
    change (inject_Z (Z.of_nat 5)) with 5. split; intros H; lra.
  - intros H si Hsi. rewrite ring_r1_eq, ring_r0_eq, outerR_eq, ringTh_6. unfold innerR.
    assert (Hs : 0 <= inject_Z (Z.of_nat si) /\ inject_Z (Z.of_nat si) <= 5).
    { split; [change 0 with (inject_Z 0); rewrite <- Zle_Qle; lia
             | change 5 with (inject_Z 5); rewrite <- Zle_Qle; lia]. }
    set (k := inject_Z (Z.of_nat si)) in *.
    assert (Hk : 0 <= k * ((size - 84) * (2 # 25) + (3 # 2))) by (apply Qmult_le_0_compat; lra).
    assert (Hk5 : k * ((size - 84) * (2 # 25) + (3 # 2)) <= 5 * ((size - 84) * (2 # 25) + (3 # 2))).
    { apply Qmult_le_compat_r; lra. }
    split; [|split]; lra.
  - intros n si. rewrite ring_r0_eq, ring_r1_eq, inject_Z_S. unfold segGap. field.
Qed.

(** X10. In every wedge of [CircularEEGChart], whatever [Math.pow(severity,
    0.7)] returns, the lit segments are exactly the innermost k, for a k
    between 0 and [segments]; with [Math.pow(0, 0.7) = 0] a severity of 0
    lights none, and with [Math.pow(1, 0.7) = 1] a severity of 1 lights all. *)
Theorem circular_lit_segments (pow07 : num -> num) (values : bands) (segments : nat) :
  (exists k, (k <= segments)%nat
     /\ forall si, segment_filled pow07 values segments si = Nat.ltb si k)
  /\ (pow07 (Fin 0) = Fin 0 -> computeStrokeSeverity values = Fin 0 ->
        forall si, segment_filled pow07 values segments si = false)
  /\ (pow07 (Fin 1) = Fin 1 -> computeStrokeSeverity values = Fin 1 ->
        forall si, (si < segments)%nat -> segment_filled pow07 values segments si = true).
Proof.
  set (n := inject_Z (Z.of_nat segments)).
  assert (Hn : 0 <= n) by (unfold n; change 0 with (inject_Z 0); rewrite <- Zle_Qle; lia).
  split; [|split].
  - unfold segment_filled, activeRings.
    destruct (clamp01_cases (pow07 (computeStrokeSeverity values) * Fin 1.1)%js)
      as [Hnan | (p & Hp & P0 & P1)]; unfold severity01.
    + rewrite Hnan. exists 0%nat. split; [lia|]. intros si.
      destruct si; reflexivity.
    + rewrite Hp. cbn [Num.mul Num.of_nat js_round].
      fold n.
      set (z := Qfloor (p * n + (1 # 2))).
      destruct (Qfloor_bounds (p * n + (1 # 2))) as [F1 F2]. fold z in F1, F2.
      assert (Hpn : p * n <= n).
      { assert (p * n <= 1 * n) by (apply Qmult_le_compat_r; lra). lra. }
      assert (Hpn0 : 0 <= p * n) by (apply Qmult_le_0_compat; lra).
      assert (Z0 : (0 <= z)%Z).
      { rewrite Zle_Qle. change (inject_Z 0) with 0.
        destruct (Qlt_le_dec (inject_Z z) 0) as [Hneg|Hok]; [|exact Hok].
        exfalso. assert (Hz : (z < 0)%Z) by (rewrite Zlt_Qlt; exact Hneg).
        assert (Hz1 : inject_Z z <= -1).
        { change (-1) with (inject_Z (-1)). rewrite <- Zle_Qle. lia. }
        lra. }
      assert (Zn : (z <= Z.of_nat segments)%Z).
      { assert (Hlt : inject_Z z < inject_Z (Z.of_nat segments + 1)).
        { rewrite inject_Z_plus. fold n. change (inject_Z 1) with 1. lra. }
        rewrite <- Zlt_Qlt in Hlt. lia. }
      exists (Z.to_nat z). split; [lia|].
      intros si. apply of_nat_lt_Z.
  - intros Hp0 Hs si. unfold segment_filled, activeRings, severity01.
    rewrite Hs, Hp0. cbn [Num.mul]. rewrite clamp_fin.
    rewrite (clampQ_zero (0 * 1.1)) by lra.
    cbn [Num.mul Num.of_nat js_round]. fold n.
    assert (E : Qfloor (0 * n + (1 # 2)) = Qfloor (1 # 2)) by (apply Qfloor_comp; ring).
    rewrite E, of_nat_lt_Z. apply Nat.ltb_ge. simpl. lia.
  - intros Hp1 Hs si Hsi. unfold segment_filled, activeRings, severity01.
    rewrite Hs, Hp1. cbn [Num.mul]. rewrite clamp_fin.
    rewrite (clampQ_one (1 * 1.1)) by lra.
    cbn [Num.mul Num.of_nat js_round]. fold n.
    assert (E : Qfloor (1 * n + (1 # 2)) = Z.of_nat segments).
    { destruct (Qfloor_bounds (1 * n + (1 # 2))) as [F1 F2].
      assert (L : (Qfloor (1 * n + (1 # 2)) <= Z.of_nat segments)%Z).
      { assert (Hlt : inject_Z (Qfloor (1 * n + (1 # 2))) < inject_Z (Z.of_nat segments + 1)).
        { rewrite inject_Z_plus. fold n. change (inject_Z 1) with 1. lra. }
        rewrite <- Zlt_Qlt in Hlt. lia. }
      assert (R : (Z.of_nat segments < Qfloor (1 * n + (1 # 2)) + 1)%Z).
      { rewrite Zlt_Qlt, inject_Z_plus. fold n. change (inject_Z 1) with 1. lra. }
      lia. }
    rewrite E. rewrite of_nat_lt_Z. apply Nat.ltb_lt. lia.
Qed.

(** X11. Along each wedge the segment colours never step back: from the
    centre outwards they go green, then yellow, then red; with 6 segments
    they are green, green, yellow, yellow, red, red. *)
Theorem circular_segment_colors_ordered (segments si sj : nat) :
  (0 < segments)%nat -> (si <= sj)%nat ->
  (color_rank (segment_color segments si) <= color_rank (segment_color segments sj))%nat
  /\ map (segment_color 6) [0; 1; 2; 3; 4; 5]%nat = [green; green; yellow; yellow; red; red].
Proof.
  intros Hn Hij. split; [|reflexivity].
  unfold segment_color. cbn [Num.of_nat Num.add].
  assert (Hq : 0 < inject_Z (Z.of_nat segments)).
  { change 0 with (inject_Z 0). rewrite <- Zlt_Qlt. lia. }
  unfold Num.of_nat.
  rewrite !div_fin_nz by (intro E; lra).
  apply radial_rank_mono, Qdiv_le_mono; [exact Hq|].
  assert (inject_Z (Z.of_nat si) <= inject_Z (Z.of_nat sj)) by (rewrite <- Zle_Qle; lia).
  lra.
Qed.

Lemma circular_rings_fit_witness :
  innerR <= ring_r0 520 6 5 /\ ring_r0 520 6 5 < ring_r1 520 6 5 /\ ring_r1 520 6 5 <= outerR 520.
Proof. apply (proj1 (proj2 (circular_rings_fit 520)) ltac:(lra) 5%nat ltac:(lia)). Defined.

Lemma circular_lit_segments_witness :
  segment_filled (fun x => x) (mkBands (Some (Fin 1)) (Some (Fin 10)) (Some (Fin 10))) 6 5 = true.
Proof.
  exact (proj2 (proj2 (circular_lit_segments (fun x => x)
            (mkBands (Some (Fin 1)) (Some (Fin 10)) (Some (Fin 10))) 6))
           eq_refl ltac:(vm_compute; reflexivity) 5%nat ltac:(lia)).
Defined.

Lemma circular_segment_colors_ordered_witness :
  (color_rank (segment_color 6 1) <= color_rank (segment_color 6 4))%nat.
Proof. exact (proj1 (circular_segment_colors_ordered 6 1 4 ltac:(lia) ltac:(lia))). Defined.

(* ------------------------------------------------------------------ *)
(** ** BrainAsymmetryChart (part_000) *)

Record asym_view : Type := mkAsymView {
  statusColor : string;
  statusText : string;
  leftOpacity : num;
  rightOpacity : num
}.

Definition getAsymmetryColor (val : num) : string :=
  if (val < Fin 0.1)%js then green
  else if (val < Fin 0.3)%js then yellow
  else red.

(** [bsiValue] is a number or missing *)
Definition BrainAsymmetryChart (bsiValue : option num) : asym_view :=
  let bsi := number_or_zero bsiValue in
  let asymmetryLevel := Num.abs bsi in
  let statusColor := getAsymmetryColor asymmetryLevel in
  let statusText :=
    if (asymmetryLevel < Fin 0.1)%js then "Symmetric"%string
    else if (asymmetryLevel < Fin 0.3)%js then "Mild Asymmetry"%string
    else "Significant Asymmetry"%string in
  let leftOpacity :=
    if (bsi < Fin 0)%js then Fin 1
    else (Fin 0.3 + (Fin 1 - asymmetryLevel) * Fin 0.7)%js in
  let rightOpacity :=
    if (Fin 0 < bsi)%js then Fin 1
    else (Fin 0.3 + (Fin 1 - asymmetryLevel) * Fin 0.7)%js in
  mkAsymView statusColor statusText leftOpacity rightOpacity.

Section AsymFacts.

Lemma Qabs_opp_eq (q : Q) : Qabs (- q) = Qabs q.
Proof. destruct q as [a b]. unfold Qabs, Qopp. simpl. rewrite Z.abs_opp. reflexivity. Qed.

Lemma number_or_zero_neg (v : num) :
  number_or_zero (Some (Num.neg v)) = Num.neg (number_or_zero (Some v))
  \/ (number_or_zero (Some (Num.neg v)) = Fin 0 /\ number_or_zero (Some v) = Fin 0).
Proof.
  destruct v as [q| | |]; unfold number_or_zero; cbn [Num.neg Num.truthy].
  - destruct (Qeq_bool q 0) eqn:E.
    + right. assert (E' : Qeq_bool (- q) 0 = true).
      { apply Qeq_bool_iff. apply Qeq_bool_iff in E. rewrite E. reflexivity. }
      rewrite E'. split; reflexivity.
    + left. assert (E' : Qeq_bool (- q) 0 = false).
      { destruct (Qeq_bool (- q) 0) eqn:F; [|reflexivity].
        apply Qeq_bool_iff in F. assert (q == 0) by lra.
        apply Qeq_bool_iff in H. congruence. }
      rewrite E'. reflexivity.
  - left. reflexivity.
  - left. reflexivity.
  - right. split; reflexivity.
Qed.

Lemma lt_neg_swap (x : num) : Num.lt (Num.neg x) (Fin 0) = Num.lt (Fin 0) x.
Proof.
  destruct x as [q| | |]; try reflexivity. cbn.
  destruct (Qle_bool 0 (- q)) eqn:E1; destruct (Qle_bool q 0) eqn:E2; try reflexivity.
  - apply Qle_bool_iff in E1. apply Qle_bool_false in E2. lra.
  - apply Qle_bool_false in E1. apply Qle_bool_iff in E2. lra.
Qed.

Lemma lt_zero_neg_swap (x : num) : Num.lt (Fin 0) (Num.neg x) = Num.lt x (Fin 0).
Proof.
  destruct x as [q| | |]; try reflexivity. cbn.
  destruct (Qle_bool (- q) 0) eqn:E1; destruct (Qle_bool 0 q) eqn:E2; try reflexivity.
  - apply Qle_bool_iff in E1. apply Qle_bool_false in E2. lra.
  - apply Qle_bool_false in E1. apply Qle_bool_iff in E2. lra.
Qed.

Lemma abs_neg (x : num) : Num.abs (Num.neg x) = Num.abs x.
Proof. destruct x as [q| | |]; try reflexivity. cbn [Num.abs Num.neg]. rewrite Qabs_opp_eq. reflexivity. Qed.

End AsymFacts.

(** X12. The brain symmetry view is mirror-symmetric: negating the BSI
    value keeps the status colour and text and swaps the opacities of the
    left and right hemispheres. *)
Theorem BrainAsymmetryChart_mirror (v : num) :
  let a := BrainAsymmetryChart (Some v) in
  let b := BrainAsymmetryChart (Some (Num.neg v)) in
  statusColor b = statusColor a /\ statusText b = statusText a
  /\ leftOpacity b = rightOpacity a /\ rightOpacity b = leftOpacity a.
Proof.
  cbv zeta. unfold BrainAsymmetryChart. cbn [statusColor statusText leftOpacity rightOpacity].
  destruct (number_or_zero_neg v) as [E | [E1 E2]].
  - rewrite E, abs_neg, lt_neg_swap, lt_zero_neg_swap.
    repeat split; reflexivity.
  - rewrite E1, E2. repeat split; reflexivity.
Qed.



(* ------------------------------------------------------------------ *)
(** ** Playback: buttons and frame timing *)

Section PlaybackMore.

Lemma nextSubject_iter (r : bool) (s : playback) (j : nat) :
  subjects (Nat.iter j (nextSubject r) s) = subjects s
  /\ ((0 < j)%nat -> subjectIndex (Nat.iter j (nextSubject r) s)
               = ((subjectIndex s + j) mod length (subjects s))%nat).
Proof.
  induction j as [|j [IHs IHk]]; [split; [reflexivity | intros; lia]|].
  rewrite Nat.iter_succ. set (t := Nat.iter j (nextSubject r) s) in *.
  unfold nextSubject. cbn [subjects subjectIndex].
  rewrite IHs. split; [reflexivity|]. intros _.
  destruct j as [|j].
  - subst t. cbn. f_equal.
  - rewrite IHk by lia. rewrite Nat.Div0.add_mod_idemp_l. f_equal. lia.
Qed.

Lemma tick_steady_eq (ts : Q) : (ts - ts) / msPerStep == 0.
Proof. unfold msPerStep. field. Qed.

End PlaybackMore.

(** X14. With the subject cursor in range, Prev undoes Next and Next
    undoes Prev, and pressing Next once per subject comes back to the
    starting subject; each of these buttons rewinds to trial 0 with a
    cleared frame reference. *)
Theorem prev_next_subject_roundtrip (r1 r2 : bool) (s : playback) :
  (subjectIndex s < length (subjects s))%nat ->
  subjectIndex (prevSubject r1 (nextSubject r2 s)) = subjectIndex s
  /\ subjectIndex (nextSubject r1 (prevSubject r2 s)) = subjectIndex s
  /\ subjectIndex (Nat.iter (length (subjects s)) (nextSubject r1) s) = subjectIndex s
  /\ i (prevSubject r1 s) = 0%nat /\ tRef (prevSubject r1 s) = 0 /\ lastTsRef (prevSubject r1 s) = 0
  /\ i (nextSubject r1 s) = 0%nat /\ tRef (nextSubject r1 s) = 0 /\ lastTsRef (nextSubject r1 s) = 0.
Proof.
  intros Hk. rewrite (proj2 (nextSubject_iter r1 s (length (subjects s)))) by lia.
  unfold prevSubject, nextSubject. cbn [subjects subjectIndex i tRef lastTsRef].
  set (n := length (subjects s)) in *. set (k := subjectIndex s) in *.
  split; [|split; [|split]]; try (repeat split; reflexivity).
  - destruct (Nat.eq_dec (S k) n) as [E|E].
    + rewrite <- Nat.add_1_r, Nat.add_1_r, E, Nat.Div0.mod_same.
      rewrite Nat.mod_small; lia.
    + rewrite (Nat.mod_small (k + 1)) by lia.
      replace (k + 1 + n - 1)%nat with (k + 1 * n)%nat by lia.
      rewrite Nat.Div0.mod_add. apply Nat.mod_small. exact Hk.
  - rewrite Nat.Div0.add_mod_idemp_l.
    replace (k + n - 1 + 1)%nat with (k + 1 * n)%nat by lia.
    rewrite Nat.Div0.mod_add. apply Nat.mod_small. exact Hk.
  - replace (k + n)%nat with (k + 1 * n)%nat by lia.
    rewrite Nat.Div0.mod_add. apply Nat.mod_small. exact Hk.
Qed.

Lemma prev_next_subject_roundtrip_witness :
  subjectIndex (prevSubject true (nextSubject true (mkPlayback demo_two_subjects 1 0 0 0 true))) = 1%nat.
Proof. exact (proj1 (prev_next_subject_roundtrip true true (mkPlayback demo_two_subjects 1 0 0 0 true)
                       ltac:(vm_compute; lia))). Defined.

(** X15. Pressing Play once the whole dataset has been played (last trial of
    the last subject, paused with the interpolation fraction at 1) does not
    start anything: the next frame pauses again and leaves the cursor where
    it was, with the fraction at 1. *)
Theorem play_at_end_pauses_again (s : playback) (ts : Q) :
  current s <> [] ->
  S (i s) = length (current s) ->
  S (subjectIndex s) = length (subjects s) ->
  playing s = false -> 1 <= tRef s ->
  let s' := tick (togglePlay s) ts in
  subjectIndex s' = subjectIndex s /\ i s' = i s /\ tRef s' = 1
  /\ playing s' = false /\ lastTsRef s' = ts.
Proof.
  intros Hne Hi Hk Hp Ht. cbv zeta.
  unfold tick. change (current (togglePlay s)) with (current s).
  destruct (current s) as [|c cs] eqn:Ec; [congruence|].
  rewrite <- Ec in Hi |- *. unfold togglePlay. cbn [playing tRef lastTsRef subjects subjectIndex i].
  rewrite Hp. cbn [negb]. change (Qeq_bool 0 0) with true. cbv iota.
  pose proof (tick_steady_eq ts) as H0.
  destruct (Qle_bool 1 (tRef s + (ts - ts) / msPerStep)) eqn:E1;
    [|apply Qle_bool_false in E1; lra].
  change (Qle_bool 1 1) with true. cbv iota.
  unfold current in *.
  rewrite (proj2 (Nat.ltb_ge (i s) (length (nth (subjectIndex s) (subjects s) []) - 1))) by lia.
  rewrite (proj2 (Nat.ltb_ge (subjectIndex s) (length (subjects s) - 1))) by lia.
  cbn. repeat split; reflexivity.
Qed.

Lemma play_at_end_pauses_again_witness :
  playing (tick (togglePlay (mkPlayback demo_dataset 0 1 1 1700 false)) 2000) = false.
Proof.
  exact (proj1 (proj2 (proj2 (proj2
    (play_at_end_pauses_again (mkPlayback demo_dataset 0 1 1 1700 false) 2000
       ltac:(discriminate) eq_refl eq_refl eq_refl ltac:(cbn; lra)))))).
Defined.

(** X16. While the interpolation fraction is below 1, the first playing
    frame after the frame reference was cleared (by Play, Reset, Prev, Next
    or a subject change) only records its timestamp: elapsed time counts as
    0, so the cursor and the fraction stay as they were and playback goes
    on.  (At fraction 1, as after Play at the end of the data, the frame
    handles the end of the trial instead.) *)
Theorem tick_first_frame_no_advance (s : playback) (ts : Q) :
  current s <> [] -> playing s = true -> lastTsRef s = 0 -> tRef s < 1 ->
  subjectIndex (tick s ts) = subjectIndex s /\ i (tick s ts) = i s
  /\ tRef (tick s ts) == tRef s /\ lastTsRef (tick s ts) = ts /\ playing (tick s ts) = true.
Proof.
  intros Hne Hp HL Ht. unfold tick.
  destruct (current s) as [|c cs] eqn:Ec; [congruence|].
  rewrite Hp, HL. cbn [negb]. change (Qeq_bool 0 0) with true. cbv iota.
  pose proof (tick_steady_eq ts) as H0.
  destruct (Qle_bool 1 (tRef s + (ts - ts) / msPerStep)) eqn:E1;
    [apply Qle_bool_iff in E1; lra|].
  destruct (Qle_bool 1 (tRef s + (ts - ts) / msPerStep)) eqn:E2;
    [congruence|].
  cbn [subjectIndex i tRef lastTsRef playing]. repeat split; try reflexivity. lra.
Qed.

Lemma tick_first_frame_no_advance_witness :
  i (tick (mkPlayback demo_dataset 0 0 (1 # 2) 0 true) 5000) = 0%nat.
Proof.
  exact (proj1 (proj2 (tick_first_frame_no_advance (mkPlayback demo_dataset 0 0 (1 # 2) 0 true) 5000
     ltac:(discriminate) eq_refl eq_refl ltac:(cbn; lra)))).
Defined.

(** X17. Inside a subject's series (not at its last trial, playing, frame
    reference set to L), a frame at time ts adds (ts - L) / 1200 to the
    interpolation fraction; when that reaches 1 the cursor moves exactly one
    trial forward and the fraction restarts at 0, otherwise the fraction is
    the sum and the cursor stays. The frame becomes the new reference. *)
Theorem tick_within_subject (s : playback) (ts : Q) :
  current s <> [] -> playing s = true -> ~ lastTsRef s == 0 ->
  (S (i s) < length (current s))%nat ->
  let x := tRef s + (ts - lastTsRef s) / msPerStep in
  let s' := tick s ts in
  subjectIndex s' = subjectIndex s /\ playing s' = true /\ lastTsRef s' = ts
  /\ (1 <= x -> i s' = S (i s) /\ tRef s' = 0)
  /\ (x < 1 -> i s' = i s /\ tRef s' = x).
Proof.
  intros Hne Hp HL Hi. cbv zeta. unfold tick.
  destruct (current s) as [|c cs] eqn:Ec; [congruence|]. rewrite <- Ec in Hi |- *.
  rewrite Hp. cbn [negb].
  destruct (Qeq_bool (lastTsRef s) 0) eqn:EL; [apply Qeq_bool_iff in EL; contradiction|].
  destruct (Qle_bool 1 (tRef s + (ts - lastTsRef s) / msPerStep)) eqn:E1.
  - change (Qle_bool 1 1) with true. cbv iota.
    rewrite (proj2 (Nat.ltb_lt (i s) (length (current s) - 1))) by lia.
    cbn [subjectIndex i tRef lastTsRef playing].
    split; [reflexivity|]. split; [reflexivity|]. split; [reflexivity|]. split.
    + intros _. split; [unfold step; lia | reflexivity].
    + intros Hx. apply Qle_bool_iff in E1. lra.
  - rewrite E1. cbn [subjectIndex i tRef lastTsRef playing].
    split; [reflexivity|]. split; [reflexivity|]. split; [reflexivity|]. split.
    + intros Hx. apply Qle_bool_false in E1. lra.
    + intros _. split; reflexivity.
Qed.

Lemma tick_within_subject_witness :
  i (tick (mkPlayback demo_dataset 0 0 (1 # 2) 1000 true) 1600) = 1%nat.
Proof.
  exact (proj1 (proj1 (proj2 (proj2 (proj2
    (tick_within_subject (mkPlayback demo_dataset 0 0 (1 # 2) 1000 true) 1600
       ltac:(discriminate) eq_refl ltac:(cbn; lra) ltac:(vm_compute; lia)))))
    ltac:(apply Qle_bool_imp_le; vm_compute; reflexivity))).
Defined.

(** X18. At the last trial of a subject that is not the last one, a playing
    frame that brings the interpolation fraction to 1 hands over to the next
    subject: its first trial, fraction 0, frame reference cleared, still
    playing. *)
Theorem tick_next_subject (s : playback) (ts : Q) :
  current s <> [] -> playing s = true ->
  S (i s) = length (current s) ->
  (S (subjectIndex s) < length (subjects s))%nat ->
  1 <= tRef s + elapsed s ts / msPerStep ->
  tick s ts = mkPlayback (subjects s) (S (subjectIndex s)) 0 0 0 true.
Proof.
  intros Hne Hp Hi Hk Hx. unfold elapsed in Hx. unfold tick.
  destruct (current s) as [|c cs] eqn:Ec; [congruence|]. rewrite <- Ec in Hi |- *.
  rewrite Hp. cbn [negb].
  destruct (Qle_bool 1 (tRef s + (ts - (if Qeq_bool (lastTsRef s) 0 then ts else lastTsRef s)) / msPerStep)) eqn:E1;
    [|apply Qle_bool_false in E1; lra].
  change (Qle_bool 1 1) with true. cbv iota.
  rewrite (proj2 (Nat.ltb_ge (i s) (length (current s) - 1))) by lia.
  rewrite (proj2 (Nat.ltb_lt (subjectIndex s) (length (subjects s) - 1))) by lia.
  f_equal. lia.
Qed.

Lemma tick_next_subject_witness :
  tick (mkPlayback demo_two_subjects 0 1 (1 # 2) 1000 true) 1600
  = mkPlayback demo_two_subjects 1 0 0 0 true.
Proof.
  exact (tick_next_subject (mkPlayback demo_two_subjects 0 1 (1 # 2) 1000 true) 1600
     ltac:(discriminate) eq_refl eq_refl ltac:(vm_compute; lia)
     ltac:(apply Qle_bool_imp_le; vm_compute; reflexivity)).
Defined.

(* ------------------------------------------------------------------ *)
(** ** AperiodicSlopeChart: plotted points (part_000) *)

(** [x || 1] on a number *)
Definition or_one (x : num) : num := if Num.truthy x then x else Fin 1.

(** the [points] of the chart as (x, y) pairs; [None] is the [return null] *)
Definition AperiodicSlopeChart_points (history : list slope_point) (width height : num)
  : option (list (num * num)) :=
  match history with
  | [] => None
  | _ =>
    let chartWidth := (width - Fin 50 - Fin 30)%js in
    let chartHeight := (height - Fin 20 - Fin 40)%js in
    let slopes := map (fun d => number_or_zero (sp_slope d)) history in
    let times := map (fun d => number_or_zero (sp_time d)) history in
    let minSlope := min_of slopes in
    let maxSlope := max_of slopes in
    let minTime := min_of times in
    let maxTime := max_of times in
    let slopeRange := or_one (maxSlope - minSlope)%js in
    let timeRange := or_one (maxTime - minTime)%js in
    Some (map (fun '(s, t) =>
                ((Fin 50 + (t - minTime) / timeRange * chartWidth)%js,
                 (Fin 20 + chartHeight - ((s - minSlope) / slopeRange * chartHeight))%js))
              (combine slopes times))
  end.

Section SlopeChartFacts.

Lemma min_max_of_fin (l : list num) :
  l <> [] -> Forall (fun x => Num.isFinite x = true) l ->
  exists lo hi, min_of l = Fin lo /\ max_of l = Fin hi
    /\ Forall (fun x => exists v, x = Fin v /\ lo <= v /\ v <= hi) l.
Proof.
  intros Hne Hl. unfold min_of, max_of.
  destruct (fold_min_pinf l Hl) as [[E _] | (lo & Hlo & Alo)]; [contradiction|].
  destruct (fold_max_ninf l Hl) as [[E _] | (hi & Hhi & Ahi)]; [contradiction|].
  exists lo, hi. split; [exact Hlo|]. split; [exact Hhi|].
  rewrite Forall_forall in *. intros x Hx.
  specialize (Hl x Hx). specialize (Alo x Hx). specialize (Ahi x Hx).
  destruct x as [v| | |]; try discriminate. exists v. split; [reflexivity|].
  cbn in Alo, Ahi. apply Qle_bool_iff in Alo, Ahi. split; assumption.
Qed.

(** [(v - lo) / ((hi - lo) || 1)] lies in [0, 1] *)
Lemma range_frac (lo hi v : Q) :
  lo <= v -> v <= hi ->
  exists f, ((Fin v - Fin lo) / or_one (Fin hi - Fin lo))%js = Fin f /\ 0 <= f /\ f <= 1.
Proof.
  intros H1 H2. unfold or_one. cbn [Num.sub Num.neg Num.add Num.truthy].
  destruct (Qeq_bool (hi + - lo) 0) eqn:E; cbn [negb].
  - apply Qeq_bool_iff in E. rewrite div_fin_nz by (intro; lra).
    eexists. split; [reflexivity|]. split.
    + apply Qle_shift_div_l; lra.
    + apply Qdiv_le_iff; lra.
  - apply Qeq_bool_neq in E. rewrite div_fin_nz by exact E.
    eexists. split; [reflexivity|]. split.
    + apply Qle_shift_div_l; [lra|]. rewrite Qmult_0_l. lra.
    + apply Qdiv_le_iff; [lra|]. rewrite Qmult_1_l. lra.
Qed.

Lemma frac_scale (f c : Q) : 0 <= f -> f <= 1 -> 0 <= c -> 0 <= f * c /\ f * c <= c.
Proof.
  intros H1 H2 H3. split.
  - apply Qmult_le_0_compat; assumption.
  - rewrite <- (Qmult_1_l c) at 2. apply Qmult_le_compat_r; assumption.
Qed.

End SlopeChartFacts.

(** X19. Whenever every slope and time of the history is a finite number
    (or missing, read as 0) and the chart is at least 80 wide and 60 high,
    the chart draws one point per sample and every point lies inside the
    plotting area: 50 <= x <= width - 30 and 20 <= y <= height - 40. This
    holds also when all slopes or all times are equal (range [|| 1]). *)
Theorem slope_chart_points_in_area (history : list slope_point) (width height : Q) :
  history <> [] ->
  Forall (fun d => Num.isFinite (number_or_zero (sp_slope d)) = true
                   /\ Num.isFinite (number_or_zero (sp_time d)) = true) history ->
  80 <= width -> 60 <= height ->
  exists pts, AperiodicSlopeChart_points history (Fin width) (Fin height) = Some pts
    /\ length pts = length history
    /\ Forall (fun p => exists x y, p = (Fin x, Fin y)
                 /\ 50 <= x /\ x <= width - 30 /\ 20 <= y /\ y <= height - 40) pts.
Proof.
  intros Hne Hfin Hw Hh. unfold AperiodicSlopeChart_points.
  destruct history as [|d0 ds] eqn:Eh; [congruence|]. rewrite <- Eh in Hfin |- *.
  set (slopes := map (fun d => number_or_zero (sp_slope d)) history).
  set (times := map (fun d => number_or_zero (sp_time d)) history).
  assert (Hs : Forall (fun x => Num.isFinite x = true) slopes).
  { unfold slopes. apply Forall_map. eapply Forall_impl; [|exact Hfin]. intros d [H _]. exact H. }
  assert (Ht : Forall (fun x => Num.isFinite x = true) times).
  { unfold times. apply Forall_map. eapply Forall_impl; [|exact Hfin]. intros d [_ H]. exact H. }
  assert (Hsne : slopes <> []) by (unfold slopes; rewrite Eh; discriminate).
  assert (Htne : times <> []) by (unfold times; rewrite Eh; discriminate).
  destruct (min_max_of_fin slopes Hsne Hs) as (slo & shi & Eslo & Eshi & As).
  destruct (min_max_of_fin times Htne Ht) as (tlo & thi & Etlo & Ethi & At).
  rewrite Eslo, Eshi, Etlo, Ethi.
  eexists. split; [reflexivity|]. split.
  { rewrite length_map, length_combine. unfold slopes, times. rewrite !length_map. lia. }
  apply Forall_forall. intros p Hp. apply in_map_iff in Hp as ([s t] & <- & Hin).
  pose proof (in_combine_l _ _ _ _ Hin) as Hins.
  pose proof (in_combine_r _ _ _ _ Hin) as Hint.
  rewrite Forall_forall in As, At.
  destruct (As s Hins) as (sv & -> & Hs1 & Hs2).
  destruct (At t Hint) as (tv & -> & Ht1 & Ht2).
  destruct (range_frac slo shi sv Hs1 Hs2) as (fs & Efs & Hfs1 & Hfs2).
  destruct (range_frac tlo thi tv Ht1 Ht2) as (ft & Eft & Hft1 & Hft2).
  rewrite Efs, Eft. cbn [Num.sub Num.neg Num.add Num.mul].
  destruct (frac_scale ft (width + - (50) + - (30)) Hft1 Hft2 ltac:(lra)) as [Hx1 Hx2].
  destruct (frac_scale fs (height + - (20) + - (40)) Hfs1 Hfs2 ltac:(lra)) as [Hy1 Hy2].
  do 2 eexists. split; [reflexivity|]. lra.
Qed.

Lemma slope_chart_points_in_area_witness :
  exists pts, AperiodicSlopeChart_points jump_of_two (Fin 600) (Fin 220) = Some pts
    /\ length pts = length jump_of_two
    /\ Forall (fun p => exists x y, p = (Fin x, Fin y)
                 /\ 50 <= x /\ x <= 600 - 30 /\ 20 <= y /\ y <= 220 - 40) pts.
Proof.
  exact (slope_chart_points_in_area jump_of_two 600 220 ltac:(discriminate)
           ltac:(repeat constructor) ltac:(lra) ltac:(lra)).
Defined.

(* ------------------------------------------------------------------ *)
(** ** The slope history the third App passes to AperiodicSlopeChart *)

Section SlopeHistory.
Context {row : Type} (t_of slope_of : row -> num).

(** [current.slice(0, i + 1).map(d => ({ time: d.t, slope: d.slope }))] *)
Definition slopeHistory (current : list row) (i : nat) : list slope_point :=
  map (fun d => mkSlopePoint (Some (t_of d)) (Some (slope_of d))) (js_slice current 0 (i + 1)).

Lemma slopeHistory_slopes (current : list row) (i : nat) :
  map (fun d => number_or_zero (sp_slope d)) (slopeHistory current i)
  = firstn (i + 1) (map (fun d => number_or_zero (Some (slope_of d))) current).
Proof.
  unfold slopeHistory, js_slice. rewrite skipn_O, map_map, firstn_map. reflexivity.
Qed.

Lemma slopeHistory_length (current : list row) (i : nat) :
  (i < length current)%nat -> length (slopeHistory current i) = S i.
Proof.
  intros Hi. unfold slopeHistory, js_slice. rewrite skipn_O, length_map, length_firstn. lia.
Qed.

End SlopeHistory.

(** X20. In the third App, at trial i of a subject, the trend alert of the
    slope chart compares the current trial's slope with the slope of trial
    max(0, i - 5): for i = 0 it is NORMAL, otherwise the change is
    |slope(i) - slope(max(0, i - 5))| / min(6, i + 1), each slope read as
    [Number(slope) || 0]. The current trial is always the last point of the
    history, so its marker is drawn. *)
Theorem third_app_trend_window {row : Type} (t_of slope_of : row -> num)
    (current : list row) (i : nat) (d0 : row) :
  (i < length current)%nat ->
  let h := slopeHistory t_of slope_of current i in
  let nz d := number_or_zero (Some (slope_of d)) in
  (i < length h)%nat
  /\ (i = 0%nat -> AperiodicSlopeChart_alert h i = Some NORMAL)
  /\ ((0 < i)%nat -> AperiodicSlopeChart_alert h i
        = Some (alertLevel (Num.div (Num.abs (Num.sub (nz (nth i current d0))
                                                      (nz (nth (i - 5) current d0))))
                                    (Num.of_nat (Nat.min 6 (S i)))))).
Proof.
  intros Hi. cbv zeta. rewrite (slopeHistory_length t_of slope_of current i Hi).
  split; [lia|].
  assert (Hne : slopeHistory t_of slope_of current i <> []).
  { intros E. pose proof (slopeHistory_length t_of slope_of current i Hi) as L.
    rewrite E in L. discriminate. }
  unfold AperiodicSlopeChart_alert.
  destruct (slopeHistory t_of slope_of current i) as [|p ps] eqn:Eh; [congruence|].
  rewrite <- Eh, slopeHistory_slopes. unfold js_slice, recentWindow.
  rewrite firstn_firstn. replace (Nat.min (i + 1) (i + 1)) with (i + 1)%nat by lia.
  set (l := map (fun d => number_or_zero (Some (slope_of d))) current).
  assert (Hl : length l = length current) by (unfold l; apply length_map).
  set (w := skipn (Nat.max 0 (i - 5)) (firstn (i + 1) l)).
  assert (Lw : length w = Nat.min 6 (S i)).
  { unfold w. rewrite length_skipn, length_firstn. lia. }
  split.
  - intros ->. unfold slopeChange.
    replace (Nat.ltb 1 (length w)) with false by (symmetry; apply Nat.ltb_ge; lia).
    reflexivity.
  - intros Hpos. unfold slopeChange.
    replace (Nat.ltb 1 (length w)) with true by (symmetry; apply Nat.ltb_lt; lia).
    rewrite Lw. unfold w. rewrite !nth_skipn, !nth_firstn.
    replace (Nat.max 0 (i - 5) + (Nat.min 6 (S i) - 1))%nat with i by lia.
    replace (Nat.max 0 (i - 5) + 0)%nat with (i - 5)%nat by lia.
    replace (Nat.ltb i (i + 1)) with true by (symmetry; apply Nat.ltb_lt; lia).
    replace (Nat.ltb (i - 5) (i + 1)) with true by (symmetry; apply Nat.ltb_lt; lia).
    unfold l. rewrite (nth_indep _ NaN (number_or_zero (Some (slope_of d0)))) by (rewrite length_map; lia).
    rewrite (nth_indep _ NaN (number_or_zero (Some (slope_of d0))) (n := (i - 5)%nat)) by (rewrite length_map; lia).
    rewrite !(map_nth (fun d => number_or_zero (Some (slope_of d))) current d0). reflexivity.
Qed.

(** the slope history of the first three trials of a series *)
Definition slope_demo_rows : list (Q * Q) := [(1, -1); (2, -1.2); (3, -1.9)].

Lemma third_app_trend_window_witness :
  AperiodicSlopeChart_alert
    (slopeHistory (fun r => Fin (fst r)) (fun r => Fin (snd r)) slope_demo_rows 2) 2
  = Some (alertLevel (Num.div (Num.abs (Num.sub (Fin (-1.9)) (Fin (-1)))) (Num.of_nat 3))).
Proof.
  exact (proj2 (proj2 (third_app_trend_window (fun r => Fin (fst r)) (fun r => Fin (snd r))
                         slope_demo_rows 2 (0, 0) ltac:(apply Nat.ltb_lt; reflexivity))) ltac:(lia)).
Defined.

(* ------------------------------------------------------------------ *)
(** ** Grouping the rows by subject (all four Apps)

    [Object.values(rows.reduce((a, r) => { a[r.subject] = a[r.subject] || [];
       a[r.subject].push(r); return a; }, {})).map((g) => g.sort((a, b) => a.t - b.t))] *)

(** the object [a]: its own properties in creation order *)
Definition dict : Type := list (string * list trial).

Fixpoint dict_lookup (a : dict) (k : string) : option (list trial) :=
  match a with
  | [] => None
  | (k', g) :: a' => if String.eqb k k' then Some g else dict_lookup a' k
  end.

(** [a[k].push(r)] on an own property [k] *)
Fixpoint dict_push (a : dict) (k : string) (r : trial) : dict :=
  match a with
  | [] => []
  | (k', g) :: a' => if String.eqb k k' then (k', g ++ [r]) :: a'
                     else (k', g) :: dict_push a' k r
  end.

(** the properties an ordinary object inherits from [Object.prototype]:
    [a[k]] is then a function or the prototype itself, truthy, and the
    following [.push] throws a TypeError *)
Definition object_proto_keys : list string :=
  ["constructor"; "__defineGetter__"; "__defineSetter__"; "hasOwnProperty";
   "__lookupGetter__"; "__lookupSetter__"; "isPrototypeOf";
   "propertyIsEnumerable"; "toString"; "valueOf"; "__proto__"; "toLocaleString"]%string.

Definition inherited_key (k : string) : bool := existsb (String.eqb k) object_proto_keys.

(** the [reduce]; [None] is the TypeError *)
Fixpoint group_rows (a : dict) (rows : list trial) : option dict :=
  match rows with
  | [] => Some a
  | r :: rs =>
    let k := tr_subject r in
    match dict_lookup a k with
    | Some _ => group_rows (dict_push a k r) rs
    | None => if inherited_key k then None else group_rows (a ++ [(k, [r])]) rs
    end
  end.

(** array indices: the canonical decimal strings of 0 .. 2^32 - 2 *)
Definition is_digit (c : Ascii.ascii) : bool :=
  let n := Ascii.nat_of_ascii c in Nat.leb 48 n && Nat.leb n 57.

Definition digits_value (l : list Ascii.ascii) : N :=
  fold_left (fun acc c => (acc * 10 + N.of_nat (Ascii.nat_of_ascii c - 48))%N) l 0%N.

Definition key_value (k : string) : N := digits_value (list_ascii_of_string k).

Definition is_array_index (k : string) : bool :=
  match list_ascii_of_string k with
  | [] => false
  | c :: rest =>
    forallb is_digit (c :: rest)
    && (negb (Nat.eqb (Ascii.nat_of_ascii c) 48) || Nat.eqb (length rest) 0)
    && N.ltb (key_value k) 4294967295%N
  end.

Fixpoint insert_by_key (kv : string * list trial) (l : dict) : dict :=
  match l with
  | [] => [kv]
  | kv' :: l' => if N.leb (key_value (fst kv)) (key_value (fst kv')) then kv :: l
                 else kv' :: insert_by_key kv l'
  end.

(** [Object.values]: the array-index keys in ascending numeric order, then
    the other keys in creation order *)
Definition object_values (a : dict) : list (list trial) :=
  map snd (fold_right insert_by_key [] (filter (fun kv => is_array_index (fst kv)) a)
           ++ filter (fun kv => negb (is_array_index (fst kv))) a).

(** [g.sort((a, b) => a.t - b.t)]: the stable sort (ES2019) under the
    comparator, as an insertion sort; the comparator is consistent on
    finite [t], where the result of [sort] is this one *)
Fixpoint insert_by_t (x : trial) (l : list trial) : list trial :=
  match l with
  | [] => [x]
  | y :: l' => if Num.lt (Fin 0) (Num.sub (tr_t x) (tr_t y)) then y :: insert_by_t x l'
               else x :: l
  end.

Definition sort_by_t (g : list trial) : list trial := fold_right insert_by_t [] g.

Definition grouped (rows : list trial) : option (list (list trial)) :=
  match group_rows [] rows with
  | None => None
  | Some a => Some (map sort_by_t (object_values a))
  end.

(** the subject of a group *)
Definition group_subject (g : list trial) : string :=
  match g with r :: _ => tr_subject r | [] => ""%string end.

(** the subjects of [rows] in order of first appearance *)
Fixpoint first_appearance (seen : list string) (rows : list trial) : list string :=
  match rows with
  | [] => []
  | r :: rs =>
    if existsb (String.eqb (tr_subject r)) seen then first_appearance seen rs
    else tr_subject r :: first_appearance (seen ++ [tr_subject r]) rs
  end.

(** a series sorted by [t] *)
Definition t_le (x y : trial) : Prop := Num.le (tr_t x) (tr_t y) = true.

Section GroupingFacts.

Definition dict_inv (a : dict) : Prop :=
  NoDup (map fst a)
  /\ Forall (fun kv => snd kv <> [] /\ Forall (fun r => tr_subject r = fst kv) (snd kv)) a.

Lemma perm_concat (l l' : list (list trial)) :
  Permutation l l' -> Permutation (concat l) (concat l').
Proof.
  induction 1 as [| x l l' _ IH | x y l | l l' l'' _ IH1 _ IH2]; cbn [concat].
  - constructor.
  - apply Permutation_app_head. exact IH.
  - rewrite !app_assoc. apply Permutation_app_tail. apply Permutation_app_comm.
  - eapply Permutation_trans; eassumption.
Qed.

Lemma dict_lookup_in (a : dict) (k : string) :
  dict_lookup a k <> None <-> In k (map fst a).
Proof.
  induction a as [|[k' g] a IH]; cbn [dict_lookup map fst In]; [tauto|].
  destruct (String.eqb k k') eqn:E.
  - apply String.eqb_eq in E. subst. split; [auto | discriminate].
  - apply String.eqb_neq in E. rewrite IH. split; [auto|]. intros [H|H]; [congruence|exact H].
Qed.

Lemma dict_push_keys (a : dict) (k : string) (r : trial) :
  map fst (dict_push a k r) = map fst a.
Proof.
  induction a as [|[k' g] a IH]; cbn [dict_push]; [reflexivity|].
  destruct (String.eqb k k'); cbn [map fst]; [reflexivity | rewrite IH; reflexivity].
Qed.

Lemma dict_push_spec (a : dict) (k : string) (r : trial) :
  In k (map fst a) -> tr_subject r = k -> dict_inv a ->
  dict_inv (dict_push a k r)
  /\ Permutation (concat (map snd (dict_push a k r))) (concat (map snd a) ++ [r]).
Proof.
  intros Hin Hk [Hnd Hall]. split; [split|].
  - rewrite dict_push_keys. exact Hnd.
  - clear Hnd Hin. induction a as [|[k' g] a IH]; cbn [dict_push]; [constructor|].
    inversion Hall as [|? ? [Hg Hgs] Ha]; subst.
    destruct (String.eqb (tr_subject r) k') eqn:E.
    + apply String.eqb_eq in E. constructor; [|exact Ha]. cbn [fst snd]. split.
      * destruct g; discriminate.
      * apply Forall_app. split; [exact Hgs | constructor; [exact E | constructor]].
    + constructor; [split; assumption | apply IH; exact Ha].
  - clear Hnd Hall. induction a as [|[k' g] a IH]; [destruct Hin|].
    cbn [dict_push]. destruct (String.eqb k k') eqn:E; cbn [map snd concat].
    + rewrite <- !app_assoc. apply Permutation_app_head.
      cbn [app]. apply Permutation_cons_append.
    + rewrite <- app_assoc. apply Permutation_app_head.
      apply IH. destruct Hin as [H|H]; [cbn in H; apply String.eqb_neq in E; congruence | exact H].
Qed.

Lemma first_appearance_seen (seen : list string) (rows : list trial) (x : string) :
  In x seen -> ~ In x (first_appearance seen rows).
Proof.
  revert seen. induction rows as [|r rs IH]; intros seen Hx; cbn [first_appearance]; [auto|].
  destruct (existsb (String.eqb (tr_subject r)) seen) eqn:E; [apply IH; exact Hx|].
  intros [H|H].
  - rewrite H in E. assert (existsb (String.eqb x) seen = true).
    { apply existsb_exists. exists x. split; [exact Hx | apply String.eqb_refl]. }
    congruence.
  - apply (IH (seen ++ [tr_subject r])); [apply in_or_app; left; exact Hx | exact H].
Qed.

Lemma group_rows_spec (rows : list trial) : forall (a : dict),
  dict_inv a -> Forall (fun r => inherited_key (tr_subject r) = false) rows ->
  exists a', group_rows a rows = Some a' /\ dict_inv a'
    /\ Permutation (concat (map snd a')) (concat (map snd a) ++ rows)
    /\ map fst a' = map fst a ++ first_appearance (map fst a) rows.
Proof.
  induction rows as [|r rs IH]; intros a Ha Hk.
  - exists a. cbn [first_appearance]. rewrite !app_nil_r.
    repeat split; try apply Ha. apply Permutation_refl.
  - inversion Hk as [|? ? Hr Hrs]; subst. cbn [group_rows first_appearance].
    destruct (dict_lookup a (tr_subject r)) as [g|] eqn:El.
    + assert (Hin : In (tr_subject r) (map fst a))
        by (apply dict_lookup_in; congruence).
      assert (Ex : existsb (String.eqb (tr_subject r)) (map fst a) = true).
      { apply existsb_exists. exists (tr_subject r). split; [exact Hin | apply String.eqb_refl]. }
      rewrite Ex.
      destruct (dict_push_spec a (tr_subject r) r Hin eq_refl Ha) as [Ha1 Hp1].
      destruct (IH _ Ha1 Hrs) as (a' & E' & Ha' & Hp' & Hkeys).
      exists a'. split; [exact E'|]. split; [exact Ha'|]. split.
      * eapply Permutation_trans; [exact Hp'|]. rewrite Hp1, <- app_assoc. apply Permutation_refl.
      * rewrite Hkeys, dict_push_keys. reflexivity.
    + rewrite Hr.
      assert (Hnin : ~ In (tr_subject r) (map fst a)) by (rewrite <- dict_lookup_in; congruence).
      assert (Ex : existsb (String.eqb (tr_subject r)) (map fst a) = false).
      { destruct (existsb (String.eqb (tr_subject r)) (map fst a)) eqn:E; [|reflexivity].
        apply existsb_exists in E as (y & Hy & Ey). apply String.eqb_eq in Ey. subst. contradiction. }
      rewrite Ex.
      assert (Ha1 : dict_inv (a ++ [(tr_subject r, [r])])).
      { destruct Ha as [Hnd Hall]. split.
        - rewrite map_app. cbn [map fst]. apply NoDup_app; [exact Hnd | repeat constructor; auto |].
          intros x Hx [Hy|[]]. subst. contradiction.
        - apply Forall_app. split; [exact Hall|]. repeat constructor. discriminate. }
      destruct (IH _ Ha1 Hrs) as (a' & E' & Ha' & Hp' & Hkeys).
      exists a'. split; [exact E'|]. split; [exact Ha'|]. split.
      * eapply Permutation_trans; [exact Hp'|]. rewrite map_app, concat_app. cbn [map snd concat].
        rewrite app_nil_r, <- app_assoc. apply Permutation_refl.
      * rewrite Hkeys, !map_app. cbn [map fst]. rewrite <- app_assoc. reflexivity.
Qed.

Lemma insert_by_key_perm (kv : string * list trial) (l : dict) :
  Permutation (insert_by_key kv l) (kv :: l).
Proof.
  induction l as [|kv' l IH]; cbn [insert_by_key]; [apply Permutation_refl|].
  destruct (N.leb _ _); [apply Permutation_refl|].
  eapply Permutation_trans; [apply perm_skip; exact IH | apply perm_swap].
Qed.

Lemma sort_keys_perm (l : dict) : Permutation (fold_right insert_by_key [] l) l.
Proof.
  induction l as [|kv l IH]; cbn [fold_right]; [constructor|].
  eapply Permutation_trans; [apply insert_by_key_perm | apply perm_skip; exact IH].
Qed.

Lemma object_values_perm (a : dict) :
  Permutation (fold_right insert_by_key [] (filter (fun kv => is_array_index (fst kv)) a)
               ++ filter (fun kv => negb (is_array_index (fst kv))) a) a.
Proof.
  eapply Permutation_trans; [apply Permutation_app_tail, sort_keys_perm|].
  induction a as [|kv a IH]; cbn [filter]; [constructor|].
  destruct (is_array_index (fst kv)); cbn [negb app].
  - apply perm_skip. exact IH.
  - eapply Permutation_trans; [apply Permutation_sym, Permutation_middle|]. apply perm_skip. exact IH.
Qed.

Lemma insert_by_key_sorted (kv : string * list trial) (l : dict) :
  Sorted (fun x y => (key_value (fst x) <= key_value (fst y))%N) l ->
  Sorted (fun x y => (key_value (fst x) <= key_value (fst y))%N) (insert_by_key kv l).
Proof.
  induction l as [|kv' l IH]; intros Hs; cbn [insert_by_key]; [repeat constructor|].
  destruct (N.leb (key_value (fst kv)) (key_value (fst kv'))) eqn:E.
  - apply N.leb_le in E. constructor; [exact Hs | constructor; exact E].
  - apply N.leb_gt in E. inversion Hs as [|? ? Hl Hh]; subst. constructor; [apply IH; exact Hl|].
    destruct l as [|kv'' l]; cbn [insert_by_key]; [constructor; lia|].
    destruct (N.leb (key_value (fst kv)) (key_value (fst kv''))); constructor; [lia|].
    inversion Hh; assumption.
Qed.

Lemma insert_by_t_perm (x : trial) (l : list trial) : Permutation (insert_by_t x l) (x :: l).
Proof.
  induction l as [|y l IH]; cbn [insert_by_t]; [apply Permutation_refl|].
  destruct (Num.lt _ _); [|apply Permutation_refl].
  eapply Permutation_trans; [apply perm_skip; exact IH | apply perm_swap].
Qed.

Lemma sort_by_t_perm (g : list trial) : Permutation (sort_by_t g) g.
Proof.
  induction g as [|x g IH]; unfold sort_by_t in *; cbn [fold_right]; [constructor|].
  eapply Permutation_trans; [apply insert_by_t_perm | apply perm_skip; exact IH].
Qed.

Lemma t_le_fin (x y : trial) (a b : Q) :
  tr_t x = Fin a -> tr_t y = Fin b ->
  (Num.lt (Fin 0) (Num.sub (tr_t x) (tr_t y)) = false <-> t_le x y).
Proof.
  intros Ex Ey. unfold t_le. rewrite Ex, Ey. cbn.
  destruct (Qle_bool (a + - b) 0) eqn:E1, (Qle_bool a b) eqn:E2; cbn [negb]; split; intros H;
    try reflexivity; try discriminate.
  - apply Qle_bool_iff in E1. apply Qle_bool_false in E2. lra.
  - apply Qle_bool_false in E1. apply Qle_bool_iff in E2. lra.
Qed.

Lemma fin_of_isFinite (x : num) : Num.isFinite x = true -> exists a, x = Fin a.
Proof. destruct x as [a| | |]; intros H; try discriminate. exists a. reflexivity. Qed.

Lemma insert_by_t_sorted (x : trial) (l : list trial) :
  Num.isFinite (tr_t x) = true -> Forall (fun r => Num.isFinite (tr_t r) = true) l ->
  Sorted t_le l -> Sorted t_le (insert_by_t x l).
Proof.
  intros Hx. destruct (fin_of_isFinite _ Hx) as [a Ea].
  induction l as [|y l IH]; intros Hl Hs; cbn [insert_by_t]; [repeat constructor|].
  inversion Hl as [|? ? Hy Hl']; subst. destruct (fin_of_isFinite _ Hy) as [b Eb].
  destruct (Num.lt (Fin 0) (Num.sub (tr_t x) (tr_t y))) eqn:E.
  - assert (Hyx : t_le y x).
    { unfold t_le. rewrite Ea, Eb. rewrite Ea, Eb in E. cbn in E |- *.
      destruct (Qle_bool (a + - b) 0) eqn:E1; [discriminate|]. apply Qle_bool_false in E1.
      apply Qle_bool_iff. lra. }
    inversion Hs as [|? ? Hsl Hh]; subst. constructor; [apply IH; assumption|].
    destruct l as [|z l]; cbn [insert_by_t]; [constructor; exact Hyx|].
    destruct (Num.lt (Fin 0) (Num.sub (tr_t x) (tr_t z))); constructor; [|exact Hyx].
    inversion Hh; assumption.
  - apply (t_le_fin x y a b Ea Eb) in E. constructor; [exact Hs | constructor; exact E].
Qed.

Lemma sort_by_t_sorted (g : list trial) :
  Forall (fun r => Num.isFinite (tr_t r) = true) g -> Sorted t_le (sort_by_t g).
Proof.
  induction g as [|x g IH]; intros Hg; unfold sort_by_t in *; cbn [fold_right]; [constructor|].
  inversion Hg as [|? ? Hx Hg']; subst. apply insert_by_t_sorted; [exact Hx | | apply IH; exact Hg'].
  apply (Permutation_Forall (Permutation_sym (sort_by_t_perm g))). exact Hg'.
Qed.

Lemma group_subject_sorted (k : string) (g : list trial) :
  g <> [] -> Forall (fun r => tr_subject r = k) g -> group_subject (sort_by_t g) = k.
Proof.
  intros Hne Hall. pose proof (sort_by_t_perm g) as Hp.
  destruct (sort_by_t g) as [|r rs] eqn:E.
  - apply Permutation_nil in Hp. congruence.
  - cbn [group_subject]. rewrite Forall_forall in Hall. apply Hall.
    apply (Permutation_in _ Hp). left. reflexivity.
Qed.

Lemma map_fst_filter (p : string -> bool) (a : dict) :
  map fst (filter (fun kv => p (fst kv)) a) = filter p (map fst a).
Proof.
  induction a as [|kv a IH]; cbn [filter map]; [reflexivity|].
  destruct (p (fst kv)); cbn [map]; rewrite IH; reflexivity.
Qed.

Lemma grouped_spec (rows : list trial) :
  Forall (fun r => inherited_key (tr_subject r) = false) rows ->
  exists a, group_rows [] rows = Some a /\ dict_inv a
    /\ Permutation (concat (map snd a)) rows
    /\ map fst a = first_appearance [] rows
    /\ grouped rows = Some (map sort_by_t (object_values a)).
Proof.
  intros Hk. destruct (group_rows_spec rows [] ltac:(split; constructor) Hk)
    as (a & E & Ha & Hp & Hkeys).
  exists a. unfold grouped. rewrite E. repeat split; try apply Ha; try exact Hkeys.
  exact Hp.
Qed.

Lemma object_values_groups (a : dict) :
  dict_inv a ->
  let L := fold_right insert_by_key [] (filter (fun kv => is_array_index (fst kv)) a)
           ++ filter (fun kv => negb (is_array_index (fst kv))) a in
  map sort_by_t (object_values a) = map (fun kv => sort_by_t (snd kv)) L
  /\ map group_subject (map sort_by_t (object_values a)) = map fst L
  /\ Permutation L a.
Proof.
  intros Ha L. pose proof (object_values_perm a) as Hp. fold L in Hp.
  assert (HL : Forall (fun kv => snd kv <> [] /\ Forall (fun r => tr_subject r = fst kv) (snd kv)) L).
  { apply (Permutation_Forall (Permutation_sym Hp)). apply Ha. }
  unfold object_values. fold L. rewrite map_map. split; [reflexivity|]. split; [|exact Hp].
  rewrite map_map. clear Hp. induction L as [|kv L IH]; [reflexivity|].
  inversion HL as [|? ? [Hne Hs] HL']; subst. cbn [map].
  rewrite (group_subject_sorted (fst kv) (snd kv) Hne Hs), IH by exact HL'. reflexivity.
Qed.

End GroupingFacts.

Section GroupingMore.

Lemma perm_concat_map_sort (L : dict) :
  Permutation (concat (map (fun kv => sort_by_t (snd kv)) L)) (concat (map snd L)).
Proof.
  induction L as [|kv L IH]; cbn [map concat]; [constructor|].
  apply Permutation_app; [apply sort_by_t_perm | exact IH].
Qed.

Lemma sorted_map_fst (R : string -> string -> Prop) (l : dict) :
  Sorted (fun x y => R (fst x) (fst y)) l -> Sorted R (map fst l).
Proof.
  induction 1 as [|kv l Hs IH Hh]; cbn [map]; constructor; [exact IH|].
  inversion Hh; cbn [map]; constructor; assumption.
Qed.

Lemma dict_push_incl (a : dict) (k : string) (r x : trial) :
  In x (concat (map snd (dict_push a k r))) -> In x (concat (map snd a)) \/ x = r.
Proof.
  induction a as [|[k' g] a IH]; cbn [dict_push]; [intros []|].
  destruct (String.eqb k k'); cbn [map snd concat]; intros H; apply in_app_or in H.
  - destruct H as [H|H]; [apply in_app_or in H; destruct H as [H|[H|[]]]|].
    + left. apply in_or_app. left. exact H.
    + right. symmetry. exact H.
    + left. apply in_or_app. right. exact H.
  - destruct H as [H|H].
    + left. apply in_or_app. left. exact H.
    + destruct (IH H) as [H'|H']; [left; apply in_or_app; right; exact H' | right; exact H'].
Qed.

Lemma group_rows_forall (P : trial -> Prop) (rows : list trial) : forall (a a' : dict),
  Forall P (concat (map snd a)) -> Forall P rows -> group_rows a rows = Some a' ->
  Forall P (concat (map snd a')).
Proof.
  induction rows as [|r rs IH]; intros a a' Ha Hr E; cbn [group_rows] in E.
  - injection E as <-. exact Ha.
  - inversion Hr as [|? ? Hr1 Hrs]; subst.
    destruct (dict_lookup a (tr_subject r)).
    + refine (IH _ _ _ Hrs E). apply Forall_forall. intros x Hx.
      destruct (dict_push_incl _ _ _ _ Hx) as [H|H].
      * rewrite Forall_forall in Ha. apply Ha. exact H.
      * subst. exact Hr1.
    + destruct (inherited_key (tr_subject r)); [discriminate|].
      refine (IH _ _ _ Hrs E). rewrite map_app, concat_app. apply Forall_app.
      split; [exact Ha|]. cbn. constructor; [exact Hr1 | constructor].
Qed.

Lemma group_rows_inherited (rows : list trial) (r : trial) : forall (a : dict),
  Forall (fun k => inherited_key k = false) (map fst a) ->
  In r rows -> inherited_key (tr_subject r) = true -> group_rows a rows = None.
Proof.
  induction rows as [|r0 rs IH]; intros a Ha Hin Hr; [destruct Hin|]. cbn [group_rows].
  destruct (dict_lookup a (tr_subject r0)) as [g|] eqn:El.
  - destruct Hin as [Er|Hin].
    + exfalso. rewrite <- Er in Hr.
      assert (Hk : In (tr_subject r0) (map fst a)) by (apply dict_lookup_in; congruence).
      rewrite Forall_forall in Ha. rewrite (Ha _ Hk) in Hr. discriminate.
    + apply IH; [rewrite dict_push_keys; exact Ha | exact Hin | exact Hr].
  - destruct (inherited_key (tr_subject r0)) eqn:Ei; [reflexivity|].
    destruct Hin as [Er|Hin]; [rewrite <- Er in Hr; congruence|].
    apply IH; [| exact Hin | exact Hr].
    rewrite map_app. apply Forall_app. split; [exact Ha | constructor; [exact Ei | constructor]].
Qed.

Lemma sort_keys_sorted (l : dict) :
  Sorted (fun x y => (key_value (fst x) <= key_value (fst y))%N) (fold_right insert_by_key [] l).
Proof.
  induction l as [|kv l IH]; cbn [fold_right]; [constructor | apply insert_by_key_sorted; exact IH].
Qed.

Lemma load_rows_finite (s2n : string -> num) (jsS : jsval -> string) (rows : list csv_row) :
  Forall (fun r => Num.isFinite (tr_t r) = true) (load_rows s2n jsS rows).
Proof.
  unfold load_rows. apply Forall_forall. intros x Hx. apply filter_In in Hx. apply Hx.
Qed.

End GroupingMore.

(** X21. When no subject is the name of a property every object inherits
    ("constructor", "toString", "__proto__", ...), grouping succeeds and
    partitions the rows: the series together hold exactly the rows (as a
    permutation), each series is non-empty and holds the rows of one
    subject, no subject has two series, and for at least one row the result
    is a dataset the playback accepts (at least one subject, no empty
    series). *)
Theorem grouped_partition (rows : list trial) :
  Forall (fun r => inherited_key (tr_subject r) = false) rows ->
  exists ds, grouped rows = Some ds
    /\ Permutation (concat ds) rows
    /\ Forall (fun g => g <> [] /\ Forall (fun r => tr_subject r = group_subject g) g) ds
    /\ NoDup (map group_subject ds)
    /\ (rows <> [] -> wf_dataset ds).
Proof.
  intros Hk. destruct (grouped_spec rows Hk) as (a & _ & Ha & Hp & _ & Eg).
  destruct (object_values_groups a Ha) as (Eds & Esub & HL).
  set (L := fold_right insert_by_key [] (filter (fun kv => is_array_index (fst kv)) a)
            ++ filter (fun kv => negb (is_array_index (fst kv))) a) in *.
  set (ds := map sort_by_t (object_values a)) in *.
  assert (Hc : Permutation (concat ds) rows).
  { rewrite Eds. eapply Permutation_trans; [apply perm_concat_map_sort|].
    eapply Permutation_trans; [apply perm_concat, Permutation_map, HL | exact Hp]. }
  assert (Hg : Forall (fun g => g <> [] /\ Forall (fun r => tr_subject r = group_subject g) g) ds).
  { rewrite Eds. apply Forall_map.
    assert (HL' := Permutation_Forall (Permutation_sym HL) (proj2 Ha)). cbv beta in HL'.
    eapply Forall_impl; [|exact HL']. intros [k g] [Hne Hs]. cbn [fst snd] in *.
    rewrite (group_subject_sorted k g Hne Hs). split.
    - intros E. pose proof (sort_by_t_perm g) as Hpg. rewrite E in Hpg.
      apply Permutation_nil in Hpg. contradiction.
    - apply (Permutation_Forall (Permutation_sym (sort_by_t_perm g))). exact Hs. }
  exists ds. split; [exact Eg|]. split; [exact Hc|]. split; [exact Hg|]. split.
  - rewrite Esub. apply (Permutation_NoDup (Permutation_map fst (Permutation_sym HL))). apply Ha.
  - intros Hne. split.
    + intros E. rewrite E in Hc. apply Permutation_nil in Hc. contradiction.
    + eapply Forall_impl; [|exact Hg]. intros g [H _]. exact H.
Qed.

Definition trial_at (subject : string) (t : Q) : trial :=
  mkTrial subject (Fin t) (Fin 9) (Fin 10) (Fin 5) (Fin 3).

Lemma grouped_partition_witness :
  exists ds, grouped [trial_at "10" 2; trial_at "9" 1; trial_at "10" 1] = Some ds
    /\ Permutation (concat ds) [trial_at "10" 2; trial_at "9" 1; trial_at "10" 1]
    /\ Forall (fun g => g <> [] /\ Forall (fun r => tr_subject r = group_subject g) g) ds
    /\ NoDup (map group_subject ds)
    /\ ([trial_at "10" 2; trial_at "9" 1; trial_at "10" 1] <> [] -> wf_dataset ds).
Proof.
  exact (grouped_partition [trial_at "10" 2; trial_at "9" 1; trial_at "10" 1]
           ltac:(repeat constructor)).
Defined.

(** X22. In the Apps that keep only rows with a finite trial number, every
    series the grouping produces is sorted by trial number. *)
Theorem loaded_series_sorted (s2n : string -> num) (jsS : jsval -> string)
    (rows : list csv_row) :
  match grouped (load_rows s2n jsS rows) with
  | Some ds => Forall (Sorted t_le) ds
  | None => True
  end.
Proof.
  unfold grouped. destruct (group_rows [] (load_rows s2n jsS rows)) as [a|] eqn:E; [|exact I].
  assert (Hf : Forall (fun r => Num.isFinite (tr_t r) = true) (concat (map snd a))).
  { apply (group_rows_forall _ (load_rows s2n jsS rows) [] a); [constructor | apply load_rows_finite | exact E]. }
  apply Forall_map. unfold object_values. apply Forall_map.
  apply Forall_forall. intros kv Hkv. apply sort_by_t_sorted.
  apply (Permutation_in _ (object_values_perm a)) in Hkv.
  rewrite Forall_forall in Hf |- *. intros x Hx. apply Hf.
  apply in_concat. exists (snd kv). split; [apply in_map; exact Hkv | exact Hx].
Qed.

(** X23. When no subject is an inherited property name, the series come in
    this order of subjects: first the subjects that are array indices
    ("0", "1", ..., "4294967294"), in ascending numeric order (so "9" before
    "10"), then the other subjects in order of first appearance in the
    rows. *)
Theorem grouped_subject_order (rows : list trial) :
  Forall (fun r => inherited_key (tr_subject r) = false) rows ->
  exists ds idx, grouped rows = Some ds
    /\ map group_subject ds
       = idx ++ filter (fun k => negb (is_array_index k)) (first_appearance [] rows)
    /\ Permutation idx (filter is_array_index (first_appearance [] rows))
    /\ Sorted (fun k1 k2 => (key_value k1 <= key_value k2)%N) idx.
Proof.
  intros Hk. destruct (grouped_spec rows Hk) as (a & _ & Ha & _ & Hkeys & Eg).
  destruct (object_values_groups a Ha) as (_ & Esub & _).
  set (S := fold_right insert_by_key [] (filter (fun kv => is_array_index (fst kv)) a)) in *.
  exists (map sort_by_t (object_values a)), (map fst S).
  split; [exact Eg|]. split; [|split].
  - rewrite Esub, map_app, <- Hkeys.
    rewrite (map_fst_filter (fun k => negb (is_array_index k)) a). reflexivity.
  - rewrite <- Hkeys, <- (map_fst_filter is_array_index a).
    apply Permutation_map. apply sort_keys_perm.
  - apply sorted_map_fst, sort_keys_sorted.
Qed.

Lemma grouped_subject_order_witness :
  grouped [trial_at "10" 2; trial_at "S1" 1; trial_at "9" 1; trial_at "10" 1] <> None.
Proof.
  destruct (grouped_subject_order [trial_at "10" 2; trial_at "S1" 1; trial_at "9" 1; trial_at "10" 1]
              ltac:(repeat constructor)) as (ds & idx & E & _).
  rewrite E. discriminate.
Defined.

(** X24. A row whose subject is the name of a property every object
    inherits ("constructor", "toString", "valueOf", "__proto__", ...) makes
    the grouping throw: [a[r.subject]] is then the inherited value and
    [.push] is not a function, so no dataset is produced. *)
Theorem grouped_inherited_subject_throws (rows : list trial) (r : trial) :
  In r rows -> inherited_key (tr_subject r) = true -> grouped rows = None.
Proof.
  intros Hin Hr. unfold grouped.
  rewrite (group_rows_inherited rows r [] ltac:(constructor) Hin Hr). reflexivity.
Qed.

Lemma grouped_inherited_subject_throws_witness :
  grouped [trial_at "7" 1; trial_at "toString" 1; trial_at "7" 2] = None.
Proof.
  exact (grouped_inherited_subject_throws [trial_at "7" 1; trial_at "toString" 1; trial_at "7" 2]
           (trial_at "toString" 1) ltac:(right; left; reflexivity) eq_refl).
Defined.
